(** * Movie recommendation: similarity graph, clusters, scoring

    A shallow embedding of [Movie_Recommendation_Algorithm.py].

    - A movie is a [string].
    - The graph is a [defaultdict(set)]: a finite map from movies to finite
      sets of movies.  Reading a missing key creates it with the empty set;
      that write is modelled, so the graph is threaded through every
      function that reads it.
    - Python sets are iterated in an order the language does not fix.  The
      order in which [dfs] walks [graph[node]] is the section variable
      [order]; all that is assumed of it is that it enumerates the set.
    - Python integers are [Z].
    - Exceptions are values of [outcome].
    - The four functions are embedded twice. First on an unbounded stack
      and with exact quotients ([Qc]): there [OutOfFuel] is the recursion
      budget of the model of [dfs], which [dfs_depth] always covers. Then,
      in the module [Py], as the interpreter runs them: [dfs] nests at most
      [limit] frames and raises [RecursionError] beyond, and every [/]
      rounds its exact quotient to a float by [fl]. Statements about which
      value wins a comparison of floats, and about what is raised, are
      made of the second. *)

From Stdlib Require Import ZArith QArith Qcanon Lia.
From stdpp Require Import base tactics numbers strings pretty option gmap sets fin_sets fin_maps fin_map_dom list.

Local Open Scope Z_scope.
Set Warnings "-clear-no-such-hyp".

(** ** Outcomes of a call *)

Inductive exn : Set := KeyError | ZeroDivisionError | ValueError | RecursionError.

Inductive outcome (A : Type) : Type :=
| Ok (a : A)
| Raise (e : exn)
| OutOfFuel.

Arguments Ok {A} a.
Arguments Raise {A} e.
Arguments OutOfFuel {A}.

Definition obind {A B : Type} (m : outcome A) (k : A → outcome B) : outcome B :=
  match m with
  | Ok a => k a
  | Raise e => Raise e
  | OutOfFuel => OutOfFuel
  end.

Notation "x ←' m ; k" := (obind m (fun x => k))
  (at level 20, m at level 100, k at level 200, only parsing).
Notation "' p ←' m ; k" := (obind m (fun x => match x with p => k end))
  (at level 20, p pattern, m at level 100, k at level 200, only parsing).

(** ** The dictionary *)

(** [graph[k]] on a [defaultdict(set)]: the set stored at [k], and the
    dictionary afterwards (a missing key is created, holding [set()]). *)
Definition getitem (graph : gmap string (gset string)) (k : string)
  : gset string * gmap string (gset string) :=
  match graph !! k with
  | Some s => (s, graph)
  | None => (∅, <[k := ∅]> graph)
  end.

(** [graph[k].add(x)] *)
Definition graph_add (graph : gmap string (gset string)) (k x : string)
  : gmap string (gset string) :=
  let '(s, graph) := getitem graph k in
  <[k := s ∪ {[x]}]> graph.

(** What [graph[k]] reads: the stored set, or the empty set. *)
Definition adj (graph : gmap string (gset string)) (k : string) : gset string :=
  default ∅ (graph !! k).

(** The dictionary after the keys of [r] have been read: those that were
    missing now hold the empty set. *)
Definition vivify (graph : gmap string (gset string)) (r : gset string)
  : gmap string (gset string) :=
  graph ∪ gset_to_gmap (∅ : gset string) r.

(** ** [build_graph] *)

(** The body of [for a, b in similarities]. *)
Definition add_similarity (graph : gmap string (gset string)) (p : string * string)
  : gmap string (gset string) :=
  let '(a, b) := p in
  let graph := graph_add graph a b in
  let graph := graph_add graph b a in
  let graph := graph_add graph a a in
  graph_add graph b b.

(** The body of [for movie in movies]. *)
Definition add_movie (graph : gmap string (gset string)) (movie : string)
  : gmap string (gset string) :=
  if decide (movie ∉ dom graph) then graph_add graph movie movie else graph.

Definition build_graph (movies : list string) (similarities : list (string * string))
  : gmap string (gset string) :=
  let graph := fold_left add_similarity similarities ∅ in
  fold_left add_movie movies graph.

(** ** Numbers *)

(** True division [x / y]. *)
Definition true_div (x y : Qc) : outcome Qc :=
  if decide (y = 0%Qc) then Raise ZeroDivisionError else Ok (x / y)%Qc.

(** [max(l, key=...)]: the first element whose key no later key exceeds. *)
Definition py_max {A : Type} (key : A → Qc) (l : list A) : outcome A :=
  match l with
  | [] => Raise ValueError
  | x :: l =>
      Ok (fold_left (fun best y => if decide (key best < key y)%Qc then y else best) l x)
  end.

(** [s.remove(x)] *)
Definition set_remove (s : gset string) (x : string) : outcome (gset string) :=
  if decide (x ∈ s) then Ok (s ∖ {[x]}) else Raise KeyError.

(** [sum(l)] over integers *)
Definition py_sum (l : list Z) : Z := fold_left Z.add l 0.

Definition sentinel : string := "No movie to recommend".

Section Algorithm.

(** Iteration order of the adjacency set stored at a key. *)
Variable order : string → gset string → list string.

(** ** [dfs] *)

(** The loop [for neighbor in graph[node]: result |= dfs(neighbor, ...)],
    given the function [rec] that runs the recursive call. *)
Definition dfs_neighbours
    (rec : string → gmap string (gset string) → gset string →
           outcome (gset string * (gmap string (gset string) * gset string)))
    (l : list string)
    (st : gset string * (gmap string (gset string) * gset string))
  : outcome (gset string * (gmap string (gset string) * gset string)) :=
  fold_left
    (fun acc neighbor =>
       '(result, (graph, visited)) ←' acc;
       '(r, (graph, visited)) ←' rec neighbor graph visited;
       Ok (result ∪ r, (graph, visited)))
    l (Ok st).

(** [fuel] bounds the depth of the recursion. The result is the returned
    set together with the graph and the [visited] set after the call. *)
Fixpoint dfs_fuel (fuel : nat) (node : string)
    (graph : gmap string (gset string)) (visited : gset string)
  : outcome (gset string * (gmap string (gset string) * gset string)) :=
  match fuel with
  | O => OutOfFuel
  | S fuel =>
      if decide (node ∈ visited) then Ok (∅, (graph, visited))
      else
        let visited := visited ∪ {[node]} in
        let result : gset string := {[node]} in
        let '(adj, graph) := getitem graph node in
        dfs_neighbours (dfs_fuel fuel) (order node adj) (result, (graph, visited))
  end.

(** Every member of every adjacency set. *)
Definition neighbours (graph : gmap string (gset string)) : gset string :=
  ⋃ (snd <$> map_to_list graph).

(** A recursion budget that is always enough (see [dfs_fuel_enough]). *)
Definition dfs_depth (graph : gmap string (gset string)) : nat :=
  size (neighbours graph) + 2.

Definition dfs (node : string) (graph : gmap string (gset string)) (visited : gset string)
  : outcome (gset string * (gmap string (gset string) * gset string)) :=
  dfs_fuel (dfs_depth graph) node graph visited.

(** ** [calculate_score] *)

Definition calculate_score (movie : string) (friends : list (list string))
    (graph : gmap string (gset string))
  : outcome ((Z * Qc) * gmap string (gset string)) :=
  let seen_friends :=
    py_sum (map (fun _ => 1) (filter (fun friend => movie ∈ friend) friends)) in
  if decide (seen_friends = 0) then Ok ((0, 0%Qc), graph)
  else
    '(similar_movies, (graph, _)) ←' dfs movie graph ∅;
    similar_movies ←' set_remove similar_movies movie;
    let '(total_similar_seen, friends_counted) :=
      fold_left
        (fun '(total_similar_seen, friends_counted) friend =>
           let similar_seen :=
             Z.of_nat (size (list_to_set friend ∩ similar_movies : gset string)) in
           if decide (similar_seen > 0)
           then (total_similar_seen + similar_seen, friends_counted + 1)
           else (total_similar_seen, friends_counted))
        friends (0, 0) in
    if decide (friends_counted = 0) then Ok ((0, 0%Qc), graph)
    else
      mean_similar_seen ←' true_div (Qc_of_Z total_similar_seen) (Qc_of_Z friends_counted);
      uniqueness ←' true_div 1%Qc mean_similar_seen;
      Ok ((seen_friends, uniqueness), graph).

(** ** [recommend_movie] *)

(** One turn of the loop [for movie in movies], from the list
    [recommendations] and the graph so far. *)
Definition score_step (friends : list (list string))
    (acc : outcome (list (string * Qc) * gmap string (gset string))) (movie : string)
  : outcome (list (string * Qc) * gmap string (gset string)) :=
  '(recommendations, graph) ←' acc;
  '((score, uniqueness), graph) ←' calculate_score movie friends graph;
  if decide (uniqueness ≠ 0%Qc)
  then
    ratio ←' true_div (Qc_of_Z score) uniqueness;
    Ok (recommendations ++ [(movie, ratio)], graph)
  else Ok (recommendations, graph).

(** The whole loop: the list [recommendations] and the graph once every
    movie has been scored. *)
Definition score_catalog (movies : list string) (friends : list (list string))
    (graph : gmap string (gset string))
  : outcome (list (string * Qc) * gmap string (gset string)) :=
  fold_left (score_step friends) movies (Ok ([], graph)).

Definition recommend_movie (movies : list string) (similarities : list (string * string))
    (friends : list (list string)) : outcome string :=
  let graph := build_graph movies similarities in
  '(recommendations, _) ←' score_catalog movies friends graph;
  match recommendations with
  | [] => Ok sentinel
  | _ =>
      best_recommendation ←' py_max snd recommendations;
      Ok (fst best_recommendation)
  end.

End Algorithm.

Definition ex_movies : list string :=
  ["Snatch"; "Lock, Stock and Two Smoking Barrels"; "The Hateful Eight";
   "Pain & Gain"; "Reservoir Dogs"].
Definition ex_similarities : list (string * string) :=
  [("Snatch", "Lock, Stock and Two Smoking Barrels");
   ("Snatch", "Pain & Gain");
   ("Reservoir Dogs", "The Hateful Eight")].
Definition ex_friends : list (list string) :=
  [["Reservoir Dogs"];
   ["Reservoir Dogs"; "Lock, Stock and Two Smoking Barrels"];
   ["Reservoir Dogs"];
   ["Snatch"];
   ["Lock, Stock and Two Smoking Barrels"];
   ["Pain & Gain"; "Reservoir Dogs"]].

(** ** Similarity clusters *)

(** [b] is in the adjacency set read at [a]. *)
Definition edge (graph : gmap string (gset string)) (a b : string) : Prop :=
  b ∈ adj graph a.

(** [b] is reached from [a] by following adjacency sets. *)
Definition reachable (graph : gmap string (gset string)) : relation string :=
  rtc (edge graph).

(** All that is known of an iteration order: it lists the members of the
    set it walks. *)
Definition enumerates (order : string → gset string → list string) : Prop :=
  ∀ k s x, x ∈ order k s ↔ x ∈ s.

(** What a call [dfs(node, graph, visited)] has done when it returns [r],
    leaving the dictionary [graph'] and the set [visited']. *)
Record dfs_post (node : string) (graph : gmap string (gset string))
    (visited r : gset string) (graph' : gmap string (gset string))
    (visited' : gset string) : Prop := {
  post_visited : visited' = visited ∪ r;
  post_fresh : r ## visited;
  post_seen : node ∈ visited → r = ∅;
  post_start : node ∈ visited';
  post_graph : graph' = vivify graph r;
  post_closed : ∀ x, x ∈ r → adj graph x ⊆ visited';
  post_reach : ∀ x, x ∈ r → reachable graph node x
}.

(** ** The quantities the scorer is specified by *)

(** Number of peers whose history contains [movie]. *)
Definition seen_by (movie : string) (friends : list (list string)) : Z :=
  Z.of_nat (length (filter (fun friend => movie ∈ friend) friends)).

(** Number of distinct movies of [similar] in one history. *)
Definition overlap (similar : gset string) (friend : list string) : Z :=
  Z.of_nat (size (list_to_set friend ∩ similar : gset string)).

(** The peers that count: those with a positive overlap. *)
Definition counted (similar : gset string) (friends : list (list string))
  : list (list string) :=
  filter (fun friend => 0 < overlap similar friend) friends.

Definition total_overlap (similar : gset string) (friends : list (list string)) : Z :=
  foldr Z.add 0 (overlap similar <$> counted similar friends).

Definition mean_overlap (similar : gset string) (friends : list (list string)) : Qc :=
  (Qc_of_Z (total_overlap similar friends) /
   Qc_of_Z (Z.of_nat (length (counted similar friends))))%Qc.

(** The pair [calculate_score] is to return for [movie], given the other
    movies [similar] of its cluster. *)
Definition score_spec (movie : string) (similar : gset string)
    (friends : list (list string)) : Z * Qc :=
  if decide (seen_by movie friends = 0) then (0, 0%Qc)
  else if decide (counted similar friends = []) then (0, 0%Qc)
  else (seen_by movie friends, (1 / mean_overlap similar friends)%Qc).

(** Every member of every adjacency set is a key. *)
Definition closed (graph : gmap string (gset string)) : Prop :=
  ∀ k x, x ∈ adj graph k → x ∈ dom graph.

(** What the loop of [recommend_movie] appends for [movie]: its ratio
    [score / uniqueness], when [uniqueness] is not [0]. *)
Definition ratio_of (order : string → gset string → list string)
    (friends : list (list string)) (graph : gmap string (gset string))
    (movie : string) : option Qc :=
  match calculate_score order movie friends graph with
  | Ok ((score, uniqueness), _) =>
      if decide (uniqueness ≠ 0%Qc) then Some (Qc_of_Z score / uniqueness)%Qc else None
  | _ => None
  end.

(** [k] occurs in some pair. *)
Definition endpoint (similarities : list (string * string)) (k : string) : Prop :=
  ∃ y, (k, y) ∈ similarities ∨ (y, k) ∈ similarities.

(** ** Shapes of input *)

(** A similarity pair joins every two distinct items of the catalog. *)
Definition pairwise_similar (movies : list string)
    (similarities : list (string * string)) : Prop :=
  Forall (fun a =>
    Forall (fun b => a = b ∨ (a, b) ∈ similarities ∨ (b, a) ∈ similarities) movies)
    movies.

(** Every item of the catalog is in the history of some peer. *)
Definition covers (movies : list string) (friends : list (list string)) : Prop :=
  Forall (fun m => Exists (fun friend => m ∈ friend) friends) movies.

(** [movie] can be recommended: some peer has seen it, and some peer has
    seen another movie of its cluster. *)
Definition candidate (graph : gmap string (gset string))
    (friends : list (list string)) (movie : string) : Prop :=
  Exists (fun friend => movie ∈ friend) friends ∧
  ∃ x, x ≠ movie ∧ reachable graph movie x ∧ Exists (fun friend => x ∈ friend) friends.

(** Two peers lists that give every movie the same counts. *)
Definition same_counts (friends friends' : list (list string)) : Prop :=
  ∀ movie similar,
    seen_by movie friends = seen_by movie friends' ∧
    length (counted similar friends) = length (counted similar friends') ∧
    total_overlap similar friends = total_overlap similar friends'.

(** ** The interpreter: recursion limit and rounded quotients *)

(** The functions above run [dfs] on an unbounded stack and divide
    exactly. The module [Py] embeds the same four functions as the
    interpreter runs them: [dfs] may nest at most [limit] frames and raises
    [RecursionError] beyond, and every [/] yields a float, the exact
    quotient rounded by [fl]. The counts divided are lengths of lists, far
    below the range in which a quotient overflows or underflows, so the
    floats that arise are finite rationals. *)

(** What is assumed of the rounding: a positive quotient stays positive. *)
Definition rounding (fl : Qc → Qc) : Prop := ∀ q, (0 < q)%Qc → (0 < fl q)%Qc.

Module Py.
Section Interpreter.

Variable order : string → gset string → list string.
Variable limit : nat.
Variable fl : Qc → Qc.

(** [float(z)] *)
Definition float (z : Z) : Qc := fl (Qc_of_Z z).

(** True division [x / y] of two floats, or of two integers. *)
Definition true_div (x y : Qc) : outcome Qc :=
  if decide (y = 0%Qc) then Raise ZeroDivisionError else Ok (fl (x / y))%Qc.

Definition dfs (node : string) (graph : gmap string (gset string)) (visited : gset string)
  : outcome (gset string * (gmap string (gset string) * gset string)) :=
  match dfs_fuel order limit node graph visited with
  | OutOfFuel => Raise RecursionError
  | out => out
  end.

Definition calculate_score (movie : string) (friends : list (list string))
    (graph : gmap string (gset string))
  : outcome ((Z * Qc) * gmap string (gset string)) :=
  let seen_friends :=
    py_sum (map (fun _ => 1) (filter (fun friend => movie ∈ friend) friends)) in
  if decide (seen_friends = 0) then Ok ((0, 0%Qc), graph)
  else
    '(similar_movies, (graph, _)) ←' dfs movie graph ∅;
    similar_movies ←' set_remove similar_movies movie;
    let '(total_similar_seen, friends_counted) :=
      fold_left
        (fun '(total_similar_seen, friends_counted) friend =>
           let similar_seen :=
             Z.of_nat (size (list_to_set friend ∩ similar_movies : gset string)) in
           if decide (similar_seen > 0)
           then (total_similar_seen + similar_seen, friends_counted + 1)
           else (total_similar_seen, friends_counted))
        friends (0, 0) in
    if decide (friends_counted = 0) then Ok ((0, 0%Qc), graph)
    else
      mean_similar_seen ←' true_div (Qc_of_Z total_similar_seen) (Qc_of_Z friends_counted);
      uniqueness ←' true_div (float 1) mean_similar_seen;
      Ok ((seen_friends, uniqueness), graph).

Definition score_step (friends : list (list string))
    (acc : outcome (list (string * Qc) * gmap string (gset string))) (movie : string)
  : outcome (list (string * Qc) * gmap string (gset string)) :=
  '(recommendations, graph) ←' acc;
  '((score, uniqueness), graph) ←' calculate_score movie friends graph;
  if decide (uniqueness ≠ 0%Qc)
  then
    ratio ←' true_div (float score) uniqueness;
    Ok (recommendations ++ [(movie, ratio)], graph)
  else Ok (recommendations, graph).

Definition score_catalog (movies : list string) (friends : list (list string))
    (graph : gmap string (gset string))
  : outcome (list (string * Qc) * gmap string (gset string)) :=
  fold_left (score_step friends) movies (Ok ([], graph)).

Definition recommend_movie (movies : list string) (similarities : list (string * string))
    (friends : list (list string)) : outcome string :=
  let graph := build_graph movies similarities in
  '(recommendations, _) ←' score_catalog movies friends graph;
  match recommendations with
  | [] => Ok sentinel
  | _ =>
      best_recommendation ←' py_max snd recommendations;
      Ok (fst best_recommendation)
  end.

(** What the loop appends for [movie]: the float [score / uniqueness],
    when [uniqueness] is not [0]. *)
Definition ratio_of (friends : list (list string)) (graph : gmap string (gset string))
    (movie : string) : option Qc :=
  match calculate_score movie friends graph with
  | Ok ((score, uniqueness), _) =>
      if decide (uniqueness ≠ 0%Qc) then Some (fl (float score / uniqueness))%Qc else None
  | _ => None
  end.

(** The pair [calculate_score] is to return for [movie], given the other
    movies [similar] of its cluster. *)
Definition score_spec (movie : string) (similar : gset string)
    (friends : list (list string)) : Z * Qc :=
  if decide (seen_by movie friends = 0) then (0, 0%Qc)
  else if decide (counted similar friends = []) then (0, 0%Qc)
  else (seen_by movie friends, fl (float 1 / fl (mean_overlap similar friends))%Qc).

End Interpreter.
End Py.

(** ** Rounding to binary64 *)

(** The quotient [n / d] of two positive integers, rounded to the nearest
    integer, ties to even. *)
Definition round_half_even (n d : Z) : Z :=
  let f := n / d in
  match 2 * (n mod d) ?= d with
  | Lt => f
  | Gt => f + 1
  | Eq => if Z.even f then f else f + 1
  end.

(** [n / d] divided by [2 ^ e], as a fraction. *)
Definition scale (n d e : Z) : Z * Z :=
  if decide (0 ≤ e) then (n, d * 2 ^ e) else (n * 2 ^ (- e), d).

(** The exponent of [n / d]: the greatest [e] with [2 ^ e ≤ n / d]. *)
Definition exponent (n d : Z) : Z :=
  let e0 := Z.log2 n - Z.log2 d in
  let '(N, D) := scale n d e0 in
  if decide (D ≤ N) then e0 else e0 - 1.

(** The nearest number with [p] significant bits, ties to even, with no
    bound on the exponent. *)
Definition round_to (p : Z) (q : Qc) : Qc :=
  if decide (0 < q)%Qc then
    let n := Qnum q in
    let d := Zpos (Qden q) in
    let e := exponent n d - (p - 1) in
    let '(N, D) := scale n d e in
    let m := round_half_even N D in
    if decide (0 ≤ e) then Q2Qc (inject_Z (m * 2 ^ e))
    else Q2Qc (Qmake m (Z.to_pos (2 ^ (- e))))
  else q.

Definition round64 : Qc → Qc := round_to 53.

(** ** Two more inputs *)

(** A path of [n] movies, each similar to the next. *)
Definition chain_movies (n : nat) : list string := pretty <$> seq 0 n.
Definition chain_similarities (n : nat) : list (string * string) :=
  (fun i => (pretty i, pretty (S i))) <$> seq 0 (n - 1).

(** Two clusters, one peer group each: the exact ratios of "A" and "B"
    are both 11, the floats are not. *)
Definition tie_movies : list string := ["A"; "B"].
Definition tie_similarities : list (string * string) :=
  [("A", "a1"); ("A", "a2"); ("A", "a3"); ("A", "a4");
   ("B", "b1"); ("B", "b2"); ("B", "b3"); ("B", "b4"); ("B", "b5"); ("B", "b6")].
Definition tie_friends : list (list string) :=
  [["A"; "a1"; "a2"; "a3"; "a4"];
   ["A"; "a1"; "a2"; "a3"; "a4"];
   ["A"; "a1"; "a2"; "a3"];
   ["B"; "b1"; "b2"; "b3"; "b4"; "b5"; "b6"];
   ["B"; "b1"; "b2"; "b3"; "b4"; "b5"]].

(** * Facts about the dictionary *)

Lemma adj_vivify graph r k : adj (vivify graph r) k = adj graph k.
Proof.
  unfold adj, vivify. rewrite lookup_union.
  destruct (graph !! k) as [s|] eqn:E; simpl.
  - by destruct (gset_to_gmap ∅ r !! k).
  - destruct (gset_to_gmap ∅ r !! k) as [s|] eqn:E'; simpl; [|done].
    by apply lookup_gset_to_gmap_Some in E' as [_ <-].
Qed.

Lemma vivify_empty graph : vivify graph ∅ = graph.
Proof. unfold vivify. rewrite gset_to_gmap_empty. apply (right_id _ _). Qed.

Lemma vivify_vivify graph r1 r2 :
  vivify (vivify graph r1) r2 = vivify graph (r1 ∪ r2).
Proof.
  unfold vivify. apply map_eq. intros k.
  rewrite !lookup_union, !lookup_gset_to_gmap.
  destruct (graph !! k) as [s|]; simpl.
  - by repeat case_guard.
  - repeat case_guard; simpl; try done; set_solver.
Qed.

Lemma vivify_dom graph r : r ⊆ dom graph → vivify graph r = graph.
Proof.
  intros Hr. unfold vivify. apply map_eq. intros k.
  rewrite lookup_union, lookup_gset_to_gmap.
  destruct (graph !! k) as [s|] eqn:E; simpl.
  - by case_guard.
  - case_guard; simpl; [|done].
    apply not_elem_of_dom in E. set_solver.
Qed.

Lemma getitem_eq graph k : getitem graph k = (adj graph k, vivify graph {[k]}).
Proof.
  unfold getitem, adj. destruct (graph !! k) as [s|] eqn:E; simpl; f_equal.
  - symmetry. apply vivify_dom. apply singleton_subseteq_l, elem_of_dom. eauto.
  - unfold vivify. apply map_eq. intros i.
    rewrite lookup_union, lookup_gset_to_gmap, lookup_insert.
    case_decide; subst.
    + rewrite E. simpl. case_guard; [done | set_solver].
    + destruct (graph !! i); simpl; case_guard; try done; set_solver.
Qed.

Lemma elem_of_neighbours graph x :
  x ∈ neighbours graph ↔ ∃ k, x ∈ adj graph k.
Proof.
  unfold neighbours, adj. rewrite elem_of_union_list. split.
  - intros (s & Hs & Hx). apply list_elem_of_fmap in Hs as ([k s'] & -> & Hk).
    apply elem_of_map_to_list in Hk. exists k. by rewrite Hk.
  - intros (k & Hx). destruct (graph !! k) as [s|] eqn:E; simpl in Hx; [|set_solver].
    exists s. split; [|done]. apply list_elem_of_fmap. exists (k, s). split; [done|].
    by apply elem_of_map_to_list.
Qed.

Lemma neighbours_vivify graph r : neighbours (vivify graph r) = neighbours graph.
Proof.
  apply set_eq. intros x. rewrite !elem_of_neighbours.
  by setoid_rewrite adj_vivify.
Qed.

(** * Facts about [build_graph] *)

Lemma lookup_graph_add graph k x k' :
  graph_add graph k x !! k' =
  if decide (k = k') then Some (adj graph k ∪ {[x]}) else graph !! k'.
Proof.
  unfold graph_add, getitem, adj.
  destruct (graph !! k) as [s|] eqn:E; simpl; rewrite lookup_insert;
    case_decide; subst; try done.
  by rewrite lookup_insert_ne.
Qed.

Lemma adj_graph_add graph k x k' :
  adj (graph_add graph k x) k' =
  if decide (k = k') then adj graph k ∪ {[x]} else adj graph k'.
Proof. unfold adj at 1. rewrite lookup_graph_add. by case_decide. Qed.

Lemma dom_graph_add graph k x : dom (graph_add graph k x) = {[k]} ∪ dom graph.
Proof.
  apply set_eq. intros k'. rewrite elem_of_union, elem_of_singleton, !elem_of_dom.
  rewrite lookup_graph_add. case_decide; subst; [|naive_solver].
  split; [auto | by eexists].
Qed.

Lemma adj_add_similarity graph a b k x :
  x ∈ adj (add_similarity graph (a, b)) k ↔
  x ∈ adj graph k ∨ (k = a ∧ (x = b ∨ x = a)) ∨ (k = b ∧ (x = a ∨ x = b)).
Proof.
  unfold add_similarity. rewrite !adj_graph_add.
  repeat case_decide; subst; set_solver.
Qed.

Lemma dom_add_similarity graph a b :
  dom (add_similarity graph (a, b)) = {[a; b]} ∪ dom graph.
Proof. unfold add_similarity. rewrite !dom_graph_add. set_solver. Qed.

Lemma adj_empty k : adj ∅ k = ∅.
Proof. unfold adj. by rewrite lookup_empty. Qed.

(** The graph after the first loop. *)
Lemma fold_add_similarity similarities :
  let graph := fold_left add_similarity similarities ∅ in
  (∀ k x, x ∈ adj graph k ↔
          (x = k ∧ endpoint similarities k) ∨
          (k, x) ∈ similarities ∨ (x, k) ∈ similarities) ∧
  (∀ k, k ∈ dom graph ↔ endpoint similarities k).
Proof.
  unfold endpoint.
  induction similarities as [|[a b] l IH] using rev_ind; cbv zeta in *.
  - cbn [fold_left]. split; intros k.
    + intros x. rewrite adj_empty. set_solver.
    + rewrite dom_empty_L. set_solver.
  - rewrite fold_left_app. cbn [fold_left]. destruct IH as [IHadj IHdom]. split; intros k.
    + intros x. rewrite adj_add_similarity, IHadj.
      setoid_rewrite elem_of_app. setoid_rewrite list_elem_of_singleton.
      naive_solver.
    + rewrite dom_add_similarity, elem_of_union, IHdom.
      setoid_rewrite elem_of_app. setoid_rewrite list_elem_of_singleton.
      set_solver.
Qed.

(** The second loop, from any graph. *)
Lemma fold_add_movie movies : ∀ graph,
  let graph' := fold_left add_movie movies graph in
  (∀ k x, x ∈ adj graph' k ↔
          x ∈ adj graph k ∨ (x = k ∧ k ∈ movies ∧ k ∉ dom graph)) ∧
  (∀ k, k ∈ dom graph' ↔ k ∈ dom graph ∨ k ∈ movies).
Proof.
  induction movies as [|m l IH] using rev_ind; intros graph; cbv zeta in *.
  - cbn [fold_left]. split; intros k; [intros x|]; set_solver.
  - rewrite fold_left_app. cbn [fold_left]. destruct (IH graph) as [IHadj IHdom].
    unfold add_movie at 1 3. case_decide as Hm.
    + split; intros k.
      * intros x. rewrite adj_graph_add. case_decide; subst.
        -- rewrite elem_of_union, IHadj, elem_of_singleton.
           rewrite IHdom in Hm. set_solver.
        -- rewrite IHadj. set_solver.
      * rewrite dom_graph_add, elem_of_union, IHdom. set_solver.
    + split; intros k.
      * intros x. rewrite IHadj. rewrite IHdom in Hm.
        rewrite elem_of_app, list_elem_of_singleton. naive_solver.
      * rewrite IHdom. rewrite IHdom in Hm. set_solver.
Qed.

Lemma build_graph_dom movies similarities k :
  k ∈ dom (build_graph movies similarities) ↔ k ∈ movies ∨ endpoint similarities k.
Proof.
  unfold build_graph.
  destruct (fold_add_similarity similarities) as [_ Hdom].
  destruct (fold_add_movie movies (fold_left add_similarity similarities ∅)) as [_ Hdom'].
  simpl in *. rewrite Hdom', Hdom. tauto.
Qed.

Lemma build_graph_adj movies similarities k x :
  x ∈ adj (build_graph movies similarities) k ↔
  (x = k ∧ (k ∈ movies ∨ endpoint similarities k)) ∨
  (k, x) ∈ similarities ∨ (x, k) ∈ similarities.
Proof.
  unfold build_graph.
  destruct (fold_add_similarity similarities) as [Hadj Hdom].
  destruct (fold_add_movie movies (fold_left add_similarity similarities ∅)) as [Hadj' _].
  simpl in *. rewrite Hadj', Hadj. specialize (Hdom k).
  destruct (decide (k ∈ dom (fold_left add_similarity similarities ∅))); tauto.
Qed.

(** Every member of an adjacency set is itself a key. *)
Lemma build_graph_closed movies similarities k x :
  x ∈ adj (build_graph movies similarities) k → x ∈ dom (build_graph movies similarities).
Proof.
  rewrite build_graph_adj, build_graph_dom. unfold endpoint. naive_solver.
Qed.

(** * Facts about [dfs] *)

Lemma reachable_vivify graph r a b :
  reachable (vivify graph r) a b ↔ reachable graph a b.
Proof.
  unfold reachable.
  split; apply rtc_subrel; intros x y; unfold edge; by rewrite adj_vivify.
Qed.

Lemma elements_enumerates : enumerates (fun _ => elements).
Proof. intros k s x. apply elem_of_elements. Qed.

Lemma fold_left_Raise {A B : Type} (f : A → B → outcome A) (l : list B) e :
  fold_left (fun acc x => obind acc (fun a => f a x)) l (Raise e) = Raise e.
Proof. induction l; simpl; auto. Qed.

Lemma fold_left_OutOfFuel {A B : Type} (f : A → B → outcome A) (l : list B) :
  fold_left (fun acc x => obind acc (fun a => f a x)) l OutOfFuel = OutOfFuel.
Proof. induction l; simpl; auto. Qed.

Section DfsFacts.

Variable order : string → gset string → list string.
Hypothesis order_spec : enumerates order.

Lemma dfs_neighbours_nil rec st : dfs_neighbours rec [] st = Ok st.
Proof. done. Qed.

Lemma dfs_neighbours_cons rec x l res graph visited :
  dfs_neighbours rec (x :: l) (res, (graph, visited)) =
  match rec x graph visited with
  | Ok (r, (graph', visited')) => dfs_neighbours rec l (res ∪ r, (graph', visited'))
  | Raise e => Raise e
  | OutOfFuel => OutOfFuel
  end.
Proof.
  unfold dfs_neighbours. simpl.
  destruct (rec x graph visited) as [[r [g' v']]|e|]; simpl.
  - done.
  - apply (fold_left_Raise (fun a neighbor =>
      let '(result, (graph, visited)) := a in
      obind (rec neighbor graph visited) (fun x =>
        let '(r, (graph, visited)) := x in Ok (result ∪ r, (graph, visited))))).
  - apply (fold_left_OutOfFuel (fun a neighbor =>
      let '(result, (graph, visited)) := a in
      obind (rec neighbor graph visited) (fun x =>
        let '(r, (graph, visited)) := x in Ok (result ∪ r, (graph, visited))))).
Qed.

Lemma dfs_fuel_S fuel node graph visited :
  dfs_fuel order (S fuel) node graph visited =
  if decide (node ∈ visited) then Ok (∅, (graph, visited))
  else dfs_neighbours (dfs_fuel order fuel) (order node (adj graph node))
         ({[node]}, (vivify graph {[node]}, visited ∪ {[node]})).
Proof. simpl. by rewrite getitem_eq. Qed.

(** The loop, when every recursive call it makes meets [dfs_post]. *)
Lemma dfs_neighbours_post rec l :
  (∀ x graph visited r graph' visited',
      rec x graph visited = Ok (r, (graph', visited')) →
      dfs_post x graph visited r graph' visited') →
  ∀ res graph visited res' graph' visited',
    dfs_neighbours rec l (res, (graph, visited)) = Ok (res', (graph', visited')) →
    ∃ rs, res' = res ∪ rs ∧ visited' = visited ∪ rs ∧ rs ## visited ∧
          graph' = vivify graph rs ∧
          (∀ x, x ∈ l → x ∈ visited') ∧
          (∀ x, x ∈ rs → adj graph x ⊆ visited') ∧
          (∀ x, x ∈ rs → ∃ y, y ∈ l ∧ reachable graph y x).
Proof.
  intros Hrec. induction l as [|x l IH]; intros res graph visited res' graph' visited' H.
  - rewrite dfs_neighbours_nil in H. simplify_eq. exists ∅.
    rewrite vivify_empty. set_solver.
  - rewrite dfs_neighbours_cons in H.
    destruct (rec x graph visited) as [[r [g1 v1]]|e|] eqn:E; [|done..].
    apply Hrec in E as [-> Hfresh _ Hstart -> Hclosed Hreach].
    apply IH in H as (rs & -> & -> & Hfresh' & -> & Hl & Hclosed' & Hreach').
    exists (r ∪ rs). rewrite vivify_vivify.
    split_and!; [set_solver..| | |].
    + intros y [->|Hy]%elem_of_cons; [set_solver | by apply Hl].
    + intros y [Hy|Hy]%elem_of_union.
      * specialize (Hclosed y Hy). set_solver.
      * specialize (Hclosed' y Hy). by rewrite adj_vivify in Hclosed'.
    + intros y [Hy|Hy]%elem_of_union.
      * exists x. split; [apply elem_of_cons; by left | by apply Hreach].
      * destruct (Hreach' y Hy) as (z & Hz & Hzy). exists z.
        split; [apply elem_of_cons; by right | by apply reachable_vivify in Hzy].
Qed.

Lemma dfs_fuel_post fuel : ∀ node graph visited r graph' visited',
  dfs_fuel order fuel node graph visited = Ok (r, (graph', visited')) →
  dfs_post node graph visited r graph' visited'.
Proof.
  induction fuel as [|fuel IH]; intros node graph visited r graph' visited' H; [done|].
  rewrite dfs_fuel_S in H. case_decide as Hin.
  - simplify_eq. split; rewrite ?vivify_empty; set_solver.
  - apply (dfs_neighbours_post _ _ IH) in H
      as (rs & -> & -> & Hfresh & -> & Hl & Hclosed & Hreach).
    rewrite vivify_vivify. split; [set_solver..|done| |].
    + intros y [->%elem_of_singleton|Hy]%elem_of_union.
      * intros z Hz. apply Hl. by apply order_spec.
      * specialize (Hclosed y Hy). by rewrite adj_vivify in Hclosed.
    + intros y [->%elem_of_singleton|Hy]%elem_of_union; [apply rtc_refl|].
      destruct (Hreach y Hy) as (z & Hz%order_spec & Hzy).
      apply reachable_vivify in Hzy. by eapply rtc_l.
Qed.

(** More fuel never changes a result. *)
Lemma dfs_neighbours_mono rec1 rec2 l :
  (∀ x graph visited out, rec1 x graph visited = Ok out → rec2 x graph visited = Ok out) →
  ∀ st out, dfs_neighbours rec1 l st = Ok out → dfs_neighbours rec2 l st = Ok out.
Proof.
  intros Hrec. induction l as [|x l IH]; intros [res [graph visited]] out H; [done|].
  rewrite dfs_neighbours_cons in *.
  destruct (rec1 x graph visited) as [[r [g1 v1]]|e|] eqn:E; [|done..].
  rewrite (Hrec _ _ _ _ E). by apply IH.
Qed.

Lemma dfs_fuel_mono fuel : ∀ fuel' node graph visited out,
  (fuel ≤ fuel')%nat →
  dfs_fuel order fuel node graph visited = Ok out →
  dfs_fuel order fuel' node graph visited = Ok out.
Proof.
  induction fuel as [|fuel IH]; intros fuel' node graph visited out Hle H; [done|].
  destruct fuel' as [|fuel']; [lia|].
  rewrite dfs_fuel_S in *. case_decide; [done|].
  revert H. apply dfs_neighbours_mono. intros x g v o. apply IH. lia.
Qed.

(** The loop returns when every recursive call it makes does. *)
Lemma dfs_neighbours_enough rec (N : gset string) (fuel : nat) l :
  (∀ x graph visited r graph' visited',
      rec x graph visited = Ok (r, (graph', visited')) →
      dfs_post x graph visited r graph' visited') →
  (∀ x graph visited,
      neighbours graph = N → x ∈ N ∪ visited → (size (N ∖ visited) < fuel)%nat →
      ∃ out, rec x graph visited = Ok out) →
  ∀ res graph visited,
    neighbours graph = N → (∀ x, x ∈ l → x ∈ N) → (size (N ∖ visited) < fuel)%nat →
    ∃ out, dfs_neighbours rec l (res, (graph, visited)) = Ok out.
Proof.
  intros Hpost Hrec. induction l as [|x l IH]; intros res graph visited HN Hl Hsz.
  - by eexists.
  - rewrite dfs_neighbours_cons.
    destruct (Hrec x graph visited) as [[r [g1 v1]] E]; [done| |done|].
    { apply elem_of_union_l, Hl, elem_of_cons. by left. }
    rewrite E. apply Hpost in E as [-> _ _ _ -> _ _].
    apply IH.
    + by rewrite neighbours_vivify.
    + intros y Hy. apply Hl, elem_of_cons. by right.
    + eapply Nat.le_lt_trans; [|exact Hsz]. apply subseteq_size. set_solver.
Qed.

(** A node of the graph is explored within as many nested calls as there
    are nodes not yet visited. *)
Lemma dfs_fuel_enough_in fuel : ∀ node graph visited,
  node ∈ neighbours graph ∪ visited →
  (size (neighbours graph ∖ visited) < fuel)%nat →
  ∃ out, dfs_fuel order fuel node graph visited = Ok out.
Proof.
  induction fuel as [|fuel IH]; intros node graph visited Hnode Hsz; [lia|].
  rewrite dfs_fuel_S. case_decide as Hin; [by eexists|].
  apply (dfs_neighbours_enough _ (neighbours graph) fuel).
  - apply dfs_fuel_post.
  - intros x g v <-. apply IH.
  - by rewrite neighbours_vivify.
  - intros x Hx%order_spec. apply elem_of_neighbours. eauto.
  - assert (neighbours graph ∖ (visited ∪ {[node]}) ⊂ neighbours graph ∖ visited) as Hlt
      by set_solver.
    apply subset_size in Hlt. lia.
Qed.

Lemma dfs_fuel_enough fuel node graph visited :
  (dfs_depth graph ≤ fuel)%nat →
  ∃ out, dfs_fuel order fuel node graph visited = Ok out.
Proof.
  unfold dfs_depth. intros Hle. destruct fuel as [|fuel]; [lia|].
  rewrite dfs_fuel_S. case_decide as Hin; [by eexists|].
  apply (dfs_neighbours_enough _ (neighbours graph) fuel).
  - apply dfs_fuel_post.
  - intros x g v <-. apply dfs_fuel_enough_in.
  - by rewrite neighbours_vivify.
  - intros x Hx%order_spec. apply elem_of_neighbours. eauto.
  - assert (size (neighbours graph ∖ (visited ∪ {[node]})) ≤ size (neighbours graph))%nat
      by (apply subseteq_size; set_solver).
    lia.
Qed.

Lemma dfs_Ok node graph visited :
  ∃ r graph' visited',
    dfs order node graph visited = Ok (r, (graph', visited')) ∧
    dfs_post node graph visited r graph' visited'.
Proof.
  destruct (dfs_fuel_enough (dfs_depth graph) node graph visited)
    as [[r [g' v']] E]; [done|].
  exists r, g', v'. split; [done|]. by apply dfs_fuel_post in E.
Qed.

(** From the empty [visited] set, [dfs] returns the nodes reachable from
    [node], has visited exactly them, and has created their missing keys. *)
Lemma dfs_cluster node graph :
  ∃ r, dfs order node graph ∅ = Ok (r, (vivify graph r, r)) ∧
       ∀ x, x ∈ r ↔ reachable graph node x.
Proof.
  destruct (dfs_Ok node graph ∅) as (r & g' & v' & E & [-> _ _ Hstart -> Hclosed Hreach]).
  exists r. rewrite E. split; [by rewrite (left_id_L ∅ (∪))|].
  intros x. split; [apply Hreach|]. revert x.
  apply (rtc_ind_r (fun x => x ∈ r) node); [set_solver|].
  intros y z Hy Hyz IH. specialize (Hclosed y IH). unfold edge in Hyz. set_solver.
Qed.

End DfsFacts.

(** The cluster does not depend on the order in which adjacency sets are
    walked. *)
Lemma dfs_order_irrelevant order1 order2 node graph :
  enumerates order1 → enumerates order2 →
  dfs order1 node graph ∅ = dfs order2 node graph ∅.
Proof.
  intros H1 H2.
  destruct (dfs_cluster order1 H1 node graph) as (r1 & -> & Hr1).
  destruct (dfs_cluster order2 H2 node graph) as (r2 & -> & Hr2).
  assert (r1 = r2) as ->; [|done].
  apply set_eq. intros x. by rewrite Hr1, Hr2.
Qed.

(** * Facts about [calculate_score] *)

Lemma py_sum_ones {A : Type} (l : list A) :
  py_sum (map (fun _ => 1) l) = Z.of_nat (length l).
Proof.
  unfold py_sum. change (Z.of_nat (length l)) with (0 + Z.of_nat (length l)).
  generalize 0. induction l as [|x l IH]; intros a; simpl fold_left.
  - simpl. lia.
  - rewrite IH. simpl length. lia.
Qed.

(** The loop over the peers computes [total_overlap] and the number of
    [counted] peers. *)
Lemma overlap_loop similar friends : ∀ t c,
  fold_left
    (fun '(total_similar_seen, friends_counted) friend =>
       let similar_seen :=
         Z.of_nat (size (list_to_set friend ∩ similar : gset string)) in
       if decide (similar_seen > 0)
       then (total_similar_seen + similar_seen, friends_counted + 1)
       else (total_similar_seen, friends_counted))
    friends (t, c) =
  (t + total_overlap similar friends,
   c + Z.of_nat (length (counted similar friends))).
Proof.
  unfold total_overlap, counted.
  induction friends as [|f l IH]; intros t c.
  - simpl. f_equal; lia.
  - cbn [fold_left]. rewrite filter_cons. fold (overlap similar f).
    cbv zeta. repeat case_decide; try lia; rewrite IH; [|done].
    cbn [fmap list_fmap foldr length]. f_equal; lia.
Qed.

Lemma overlap_pos similar friend :
  0 < overlap similar friend ↔ ∃ x, x ∈ friend ∧ x ∈ similar.
Proof.
  unfold overlap. split.
  - intros H.
    destruct (set_choose_or_empty (list_to_set friend ∩ similar : gset string))
      as [[x Hx]|He].
    + exists x. set_solver.
    + apply size_empty_iff in He. lia.
  - intros (x & Hx & Hs).
    assert (size (list_to_set friend ∩ similar : gset string) ≠ 0%nat); [|lia].
    apply size_non_empty_iff. set_solver.
Qed.

Lemma counted_le_total similar friends :
  Z.of_nat (length (counted similar friends)) ≤ total_overlap similar friends.
Proof.
  unfold total_overlap, counted.
  induction friends as [|f l IH]; [done|].
  rewrite filter_cons. case_decide; [|done].
  cbn [fmap list_fmap foldr length]. fold (fmap (M:=list) (overlap similar)). lia.
Qed.

Lemma filter_nil_Forall {A : Type} (P : A → Prop) `{!∀ x, Decision (P x)} (l : list A) :
  filter P l = [] ↔ Forall (fun x => ¬ P x) l.
Proof.
  induction l as [|x l IH]; [by split|].
  rewrite filter_cons, Forall_cons. case_decide; [|tauto].
  split; [done | tauto].
Qed.

Lemma counted_nil similar friends :
  counted similar friends = [] ↔
  Forall (fun friend => list_to_set friend ∩ similar = (∅ : gset string)) friends.
Proof.
  unfold counted. rewrite Forall_forall. split.
  - intros H f Hf. apply set_eq. intros x. split; [|set_solver].
    intros [Hx Hs]%elem_of_intersection. apply elem_of_list_to_set in Hx.
    assert (f ∈ filter (fun friend => 0 < overlap similar friend) friends) as Hin.
    { apply list_elem_of_filter. split; [apply overlap_pos; eauto | done]. }
    rewrite H in Hin. by apply elem_of_nil in Hin.
  - intros H. apply filter_nil_Forall, Forall_forall. intros f Hf Hpos.
    apply overlap_pos in Hpos as (x & Hx & Hs). specialize (H f Hf). set_solver.
Qed.

Lemma seen_by_0 movie friends :
  seen_by movie friends = 0 ↔ Forall (fun friend => movie ∉ friend) friends.
Proof.
  unfold seen_by. rewrite <-(filter_nil_Forall (fun friend => movie ∈ friend)).
  destruct (filter _ friends); simpl; split; intros; try done; lia.
Qed.

Lemma mean_overlap_ge_1 similar friends :
  counted similar friends ≠ [] → (1 ≤ mean_overlap similar friends)%Qc.
Proof.
  intros Hne. unfold mean_overlap.
  pose proof (counted_le_total similar friends) as Hle.
  assert (0 < Z.of_nat (length (counted similar friends))) as Hpos
    by (destruct (counted similar friends); [done | simpl; lia]).
  apply Z2Qc_inj_lt in Hpos. apply Z2Qc_inj_le in Hle. rewrite Z2Qc_inj_0 in Hpos.
  apply (Qcmult_le_mono_pos_r _ _ _ Hpos).
  rewrite Qcmult_1_l, (Qcmult_comm (_ / _)), Qcmult_div_r; [done|].
  by apply not_symmetry, Qclt_not_eq.
Qed.

(** * Facts about [max] and the candidate list *)

Lemma py_max_fold {A : Type} (key : A → Qc) (l : list A) : ∀ pre b mid,
  (∀ y, y ∈ pre → (key y < key b)%Qc) →
  (∀ y, y ∈ mid → (key y ≤ key b)%Qc) →
  ∃ l1 l2,
    pre ++ b :: mid ++ l =
      l1 ++ fold_left (fun best y => if decide (key best < key y)%Qc then y else best) l b :: l2 ∧
    (∀ y, y ∈ l1 →
       (key y < key (fold_left (fun best y => if decide (key best < key y)%Qc then y else best) l b))%Qc) ∧
    (∀ y, y ∈ l2 →
       (key y ≤ key (fold_left (fun best y => if decide (key best < key y)%Qc then y else best) l b))%Qc).
Proof.
  induction l as [|y l IH]; intros pre b mid Hpre Hmid.
  - exists pre, mid. by rewrite app_nil_r.
  - cbn [fold_left]. case_decide as Hlt.
    + destruct (IH (pre ++ b :: mid) y []) as (l1 & l2 & Heq & H1 & H2).
      * intros z [Hz|[ ->|Hz]%elem_of_cons]%elem_of_app.
        -- eapply Qclt_trans; [by apply Hpre | done].
        -- done.
        -- eapply Qcle_lt_trans; [by apply Hmid | done].
      * intros z Hz. by apply elem_of_nil in Hz.
      * exists l1, l2. split; [|done]. rewrite <-Heq. by rewrite <-app_assoc.
    + destruct (IH pre b (mid ++ [y])) as (l1 & l2 & Heq & H1 & H2).
      * done.
      * intros z [Hz| ->%list_elem_of_singleton]%elem_of_app; [by apply Hmid|].
        by apply Qcnot_lt_le.
      * exists l1, l2. split; [|done]. rewrite <-Heq. by rewrite <-app_assoc.
Qed.

(** [max] returns the first element that no element exceeds. *)
Lemma py_max_first {A : Type} (key : A → Qc) (x : A) (l : list A) :
  ∃ best l1 l2,
    py_max key (x :: l) = Ok best ∧ x :: l = l1 ++ best :: l2 ∧
    (∀ y, y ∈ l1 → (key y < key best)%Qc) ∧
    (∀ y, y ∈ l2 → (key y ≤ key best)%Qc).
Proof.
  destruct (py_max_fold key l [] x []) as (l1 & l2 & Heq & H1 & H2);
    [intros y Hy; by apply elem_of_nil in Hy..|].
  eexists _, l1, l2. split; [done|]. split; [exact Heq | done].
Qed.

Lemma omap_split {A B : Type} (f : A → option B) (l : list A) : ∀ r1 c r2,
  omap f l = r1 ++ c :: r2 →
  ∃ pre m post, l = pre ++ m :: post ∧ omap f pre = r1 ∧ f m = Some c ∧ omap f post = r2.
Proof.
  induction l as [|m l IH]; intros r1 c r2 H.
  - by destruct r1.
  - cbn [omap list_omap] in H. destruct (f m) as [y|] eqn:E.
    + destruct r1 as [|y' r1]; simpl in H; injection H as -> H.
      * by exists [], m, l.
      * destruct (IH _ _ _ H) as (pre & m' & post & -> & <- & Hm' & <-).
        exists (m :: pre), m', post. cbn [omap list_omap]. by rewrite E.
    + destruct (IH _ _ _ H) as (pre & m' & post & -> & <- & Hm' & <-).
      exists (m :: pre), m', post. cbn [omap list_omap]. by rewrite E.
Qed.

Lemma elem_of_omap_pair {A B : Type} (f : A → option B) (l : list A) m q :
  m ∈ l → f m = Some q → (m, q) ∈ omap (fun m => pair m <$> f m) l.
Proof.
  intros Hm Hf. apply list_elem_of_omap. exists m. split; [done|]. by rewrite Hf.
Qed.

Section ScoreFacts.

Variable order : string → gset string → list string.
Hypothesis order_spec : enumerates order.

(** [calculate_score] never raises; it returns [score_spec] of the
    cluster found by [dfs]. The graph is read only when some peer has
    seen the movie. *)
Lemma calculate_score_eq movie friends graph :
  ∃ cluster,
    dfs order movie graph ∅ = Ok (cluster, (vivify graph cluster, cluster)) ∧
    (∀ x, x ∈ cluster ↔ reachable graph movie x) ∧
    calculate_score order movie friends graph =
      Ok (score_spec movie (cluster ∖ {[movie]}) friends,
          if decide (seen_by movie friends = 0) then graph
          else vivify graph cluster).
Proof.
  destruct (dfs_cluster order order_spec movie graph) as (r & E & Hr).
  exists r. split; [done|]. split; [done|].
  unfold calculate_score, score_spec. rewrite py_sum_ones. fold (seen_by movie friends).
  case_decide as Hseen; [done|].
  rewrite E. cbn [obind]. unfold set_remove.
  rewrite decide_True by (apply Hr, rtc_refl). cbn [obind].
  rewrite overlap_loop, !Z.add_0_l.
  case_decide as Hc.
  { rewrite decide_True; [done|]. destruct (counted _ friends); [done | simpl in Hc; lia]. }
  rewrite decide_False by (intros Hnil; rewrite Hnil in Hc; done).
  assert (counted (r ∖ {[movie]}) friends ≠ []) as Hne
    by (intros Hnil; rewrite Hnil in Hc; done).
  pose proof (mean_overlap_ge_1 _ _ Hne) as Hmean.
  unfold true_div. rewrite decide_False.
  2:{ rewrite <-Z2Qc_inj_0. intros Heq%Z2Qc_inj. done. }
  cbn [obind]. fold (mean_overlap (r ∖ {[movie]}) friends).
  rewrite decide_False; [done|].
  intros Heq. rewrite Heq in Hmean. by apply Qcle_not_lt in Hmean.
Qed.

Lemma reachable_dom graph a b :
  closed graph → a ∈ dom graph → reachable graph a b → b ∈ dom graph.
Proof.
  intros Hcl Ha. revert b. apply (rtc_ind_r (fun x => x ∈ dom graph) a); [done|].
  intros y z _ Hyz _. by apply (Hcl y).
Qed.

(** On a closed graph the traversal creates no key, whatever the
    [visited] set and the recursion budget. *)
Lemma dfs_fuel_closed fuel node graph visited r graph' visited' :
  closed graph → node ∈ dom graph →
  dfs_fuel order fuel node graph visited = Ok (r, (graph', visited')) →
  graph' = graph.
Proof.
  intros Hcl Hnode [_ _ _ _ -> _ Hreach]%(dfs_fuel_post order order_spec).
  apply vivify_dom. intros x Hx. by apply (reachable_dom graph node), Hreach.
Qed.

Lemma calculate_score_closed movie friends graph :
  closed graph → movie ∈ dom graph →
  ∃ sn, calculate_score order movie friends graph = Ok (sn, graph).
Proof.
  intros Hcl Hm. destruct (calculate_score_eq movie friends graph) as (r & _ & Hr & ->).
  eexists. f_equal. f_equal. case_decide; [done|].
  apply vivify_dom. intros x Hx. by apply (reachable_dom graph movie), Hr.
Qed.

Lemma score_step_closed friends graph acc m :
  closed graph → m ∈ dom graph →
  score_step order friends (Ok (acc, graph)) m =
    Ok (acc ++ option_list (pair m <$> ratio_of order friends graph m), graph).
Proof.
  intros Hcl Hm. unfold score_step, ratio_of. cbn [obind].
  destruct (calculate_score_closed m friends graph Hcl Hm) as ([score u] & ->).
  cbn [obind]. case_decide as Hu.
  - unfold true_div. by rewrite decide_False by done.
  - simpl. by rewrite app_nil_r.
Qed.

(** The loop over the catalog keeps the candidates, in catalog order. *)
Lemma score_catalog_loop friends graph movies : ∀ acc,
  closed graph → (∀ m, m ∈ movies → m ∈ dom graph) →
  fold_left (score_step order friends) movies (Ok (acc, graph)) =
    Ok (acc ++ omap (fun m => pair m <$> ratio_of order friends graph m) movies, graph).
Proof.
  induction movies as [|m l IH]; intros acc Hcl Hdom.
  - by rewrite app_nil_r.
  - cbn [fold_left omap]. rewrite score_step_closed, IH; [|done| |done|].
    + rewrite <-app_assoc. f_equal. cbn [omap list_omap].
      by destruct (ratio_of order friends graph m).
    + intros m' Hm'. apply Hdom, elem_of_cons. by right.
    + apply Hdom, elem_of_cons. by left.
Qed.

Lemma score_catalog_eq friends graph movies :
  closed graph → (∀ m, m ∈ movies → m ∈ dom graph) →
  score_catalog order movies friends graph =
    Ok (omap (fun m => pair m <$> ratio_of order friends graph m) movies, graph).
Proof. intros Hcl Hdom. unfold score_catalog. by rewrite score_catalog_loop. Qed.

(** With at least one candidate, [recommend_movie] returns the first
    movie of the catalog whose ratio no candidate exceeds. *)
Lemma recommend_movie_first_max movies similarities friends :
  let graph := build_graph movies similarities in
  (∃ m, m ∈ movies ∧ is_Some (ratio_of order friends graph m)) →
  ∃ pre m post q,
    movies = pre ++ m :: post ∧
    ratio_of order friends graph m = Some q ∧
    recommend_movie order movies similarities friends = Ok m ∧
    (∀ m' q', m' ∈ pre → ratio_of order friends graph m' = Some q' → (q' < q)%Qc) ∧
    (∀ m' q', m' ∈ post → ratio_of order friends graph m' = Some q' → (q' ≤ q)%Qc).
Proof.
  intros graph (m0 & Hm0 & [q0 Hq0]).
  unfold recommend_movie. fold graph.
  rewrite score_catalog_eq;
    [|intros k x; apply build_graph_closed
     |intros m Hm; apply build_graph_dom; by left].
  cbn [obind].
  pose proof (elem_of_omap_pair _ _ _ _ Hm0 Hq0) as Hin.
  destruct (omap _ movies) as [|c cs] eqn:Hrecs; [by apply elem_of_nil in Hin|].
  destruct (py_max_first snd c cs) as ([m q] & l1 & l2 & -> & Heq & H1 & H2).
  rewrite Heq in Hrecs.
  apply omap_split in Hrecs as (pre & m' & post & -> & <- & Hm' & <-).
  destruct (ratio_of order friends graph m') as [q'|] eqn:Hq'; simplify_eq/=.
  exists pre, m, post, q. split_and!; [done..| |].
  - intros m' q' Hpre Hr. apply (H1 (m', q')). by apply elem_of_omap_pair.
  - intros m' q' Hpost Hr. apply (H2 (m', q')). by apply elem_of_omap_pair.
Qed.

(** Without a candidate it returns the sentinel. *)
Lemma recommend_movie_no_candidate movies similarities friends :
  let graph := build_graph movies similarities in
  (∀ m, m ∈ movies → ratio_of order friends graph m = None) →
  recommend_movie order movies similarities friends = Ok sentinel.
Proof.
  intros graph Hnone.
  unfold recommend_movie. fold graph.
  rewrite score_catalog_eq;
    [|intros k x; apply build_graph_closed
     |intros m Hm; apply build_graph_dom; by left].
  cbn [obind].
  destruct (omap _ movies) as [|[m q] cs] eqn:Hrecs; [done|].
  assert ((m, q) ∈ omap (fun m => pair m <$> ratio_of order friends graph m) movies)
    as (m' & Hm' & Hf)%list_elem_of_omap by (rewrite Hrecs; apply elem_of_cons; by left).
  by rewrite (Hnone m' Hm') in Hf.
Qed.

(** A movie is a candidate as soon as one peer has seen it and one peer
    has seen another movie of its cluster. *)
Lemma ratio_of_is_Some movie friends graph x :
  Exists (fun friend => movie ∈ friend) friends →
  Exists (fun friend => x ∈ friend) friends →
  x ≠ movie → reachable graph movie x →
  is_Some (ratio_of order friends graph movie).
Proof.
  intros Hseen Hover Hne Hreach. unfold ratio_of.
  destruct (calculate_score_eq movie friends graph) as (r & _ & Hr & ->).
  unfold score_spec.
  rewrite decide_False.
  2:{ rewrite seen_by_0. intros Hall. apply Exists_exists in Hseen as (f & Hf & Hin).
      rewrite Forall_forall in Hall. by apply (Hall f). }
  assert (counted (r ∖ {[movie]}) friends ≠ []) as Hc.
  { rewrite counted_nil, Forall_forall. intros Hall.
    apply Exists_exists in Hover as (f & Hf & Hin).
    specialize (Hall f Hf). apply Hr in Hreach. set_solver. }
  rewrite decide_False by done.
  pose proof (mean_overlap_ge_1 _ _ Hc) as Hmean.
  rewrite decide_True; [by eexists|].
  intros H0. apply Qcmult_integral in H0 as [H0|H0]; [done|].
  assert (0 < mean_overlap (r ∖ {[movie]}) friends)%Qc as Hpos
    by (eapply Qclt_le_trans; [|exact Hmean]; done).
  apply Qcinv_pos in Hpos. rewrite H0 in Hpos. by apply Qclt_not_eq in Hpos.
Qed.

End ScoreFacts.

(** * The iteration order does not matter *)

Lemma calculate_score_order_irrelevant order1 order2 movie friends graph :
  enumerates order1 → enumerates order2 →
  calculate_score order1 movie friends graph = calculate_score order2 movie friends graph.
Proof.
  intros H1 H2. unfold calculate_score.
  by rewrite (dfs_order_irrelevant order1 order2).
Qed.

Lemma score_catalog_order_irrelevant order1 order2 movies friends graph :
  enumerates order1 → enumerates order2 →
  score_catalog order1 movies friends graph = score_catalog order2 movies friends graph.
Proof.
  intros H1 H2. unfold score_catalog. generalize (Ok (@nil (string * Qc), graph)).
  induction movies as [|m l IH]; intros acc; [done|].
  cbn [fold_left]. rewrite IH. f_equal.
  unfold score_step. destruct acc as [[recs g]| |]; cbn [obind]; [|done..].
  by rewrite (calculate_score_order_irrelevant order1 order2).
Qed.

Lemma recommend_movie_order_irrelevant order1 order2 movies similarities friends :
  enumerates order1 → enumerates order2 →
  recommend_movie order1 movies similarities friends =
  recommend_movie order2 movies similarities friends.
Proof.
  intros H1 H2. unfold recommend_movie.
  by rewrite (score_catalog_order_irrelevant order1 order2).
Qed.

(** The pair returned for a catalog item, read off a computation;
    the graph comes back unchanged. *)
Lemma calculate_score_value order movie friends movies similarities sn :
  enumerates order → movie ∈ movies →
  match calculate_score order movie friends (build_graph movies similarities) with
  | Ok (sn', _) => sn'
  | _ => (0, 0%Qc)
  end = sn →
  calculate_score order movie friends (build_graph movies similarities) =
    Ok (sn, build_graph movies similarities).
Proof.
  intros H Hm Hv.
  destruct (calculate_score_closed order H movie friends
              (build_graph movies similarities)) as [sn' Hsn].
  - intros k x. apply build_graph_closed.
  - apply build_graph_dom. by left.
  - rewrite Hsn in Hv. by rewrite Hsn, Hv.
Qed.

(** * The worked example *)

(** C1. On the catalog, similarity pairs and six peer histories of the
    worked example, [recommend_movie] returns exactly
    "Lock, Stock and Two Smoking Barrels", whatever the order in which the
    adjacency sets are walked. *)
Theorem worked_example order :
  enumerates order →
  recommend_movie order ex_movies ex_similarities ex_friends =
    Ok "Lock, Stock and Two Smoking Barrels".
Proof.
  intros H.
  rewrite (recommend_movie_order_irrelevant order (fun _ => elements))
    by (done || apply elements_enumerates).
  by vm_compute.
Qed.

Lemma worked_example_witness :
  enumerates (fun _ => elements) ∧
  recommend_movie (fun _ => elements) ex_movies ex_similarities ex_friends =
    Ok "Lock, Stock and Two Smoking Barrels".
Proof.
  split; [apply elements_enumerates|].
  apply (worked_example (fun _ => elements)). apply elements_enumerates.
Defined.

(** * The graph *)

(** C8. In the graph returned by [build_graph], every item of the items
    list is a key, the adjacency set of every key contains the key, and for
    distinct [a] and [b], [b] is in [graph[a]] exactly when [a] is in
    [graph[b]]. *)
Theorem build_graph_invariant movies similarities :
  let graph := build_graph movies similarities in
  (∀ m, m ∈ movies → m ∈ dom graph) ∧
  (∀ k s, graph !! k = Some s → k ∈ s) ∧
  (∀ a b, a ≠ b → (b ∈ adj graph a ↔ a ∈ adj graph b)).
Proof.
  intros graph. split_and!.
  - intros m Hm. apply build_graph_dom. by left.
  - intros k s Hk.
    assert (k ∈ adj graph k) as Hself.
    { apply build_graph_adj. left. split; [done|].
      apply build_graph_dom, elem_of_dom. by eexists. }
    unfold adj in Hself. by rewrite Hk in Hself.
  - intros a b Hab. unfold graph. rewrite !build_graph_adj. naive_solver.
Qed.

(** * The traversal *)

(** C7. On every graph, cycles included, [dfs] returns: with a recursion
    budget of [dfs_depth graph] or more, the call yields one and the same
    result, and the [visited] set it leaves contains the old one and the
    start node. *)
Theorem dfs_terminates order node graph visited :
  enumerates order →
  ∃ r graph' visited',
    (∀ fuel, (dfs_depth graph ≤ fuel)%nat →
             dfs_fuel order fuel node graph visited = Ok (r, (graph', visited'))) ∧
    visited ⊆ visited' ∧ node ∈ visited'.
Proof.
  intros H.
  destruct (dfs_Ok order H node graph visited) as (r & g' & v' & E & [-> _ _ Hstart _ _ _]).
  exists r, g', (visited ∪ r). split_and!; [|set_solver|done].
  intros fuel Hle. by apply (dfs_fuel_mono order (dfs_depth graph)).
Qed.

Lemma dfs_terminates_witness :
  enumerates (fun _ => elements) ∧
  ∃ r graph' visited',
    (∀ fuel, (dfs_depth (build_graph ex_movies ex_similarities) ≤ fuel)%nat →
             dfs_fuel (fun _ => elements) fuel "Snatch"
               (build_graph ex_movies ex_similarities) ∅ = Ok (r, (graph', visited'))) ∧
    ∅ ⊆ visited' ∧ "Snatch" ∈ visited'.
Proof.
  split; [apply elements_enumerates|].
  apply (dfs_terminates (fun _ => elements) "Snatch"
           (build_graph ex_movies ex_similarities) ∅).
  apply elements_enumerates.
Defined.



(** C9. While [recommend_movie] scores the catalog, the graph stays as
    [build_graph] returned it: no call of [dfs] on a key (at any recursion
    budget and [visited] set), no call of [calculate_score] on a catalog
    item, and not the loop as a whole, changes a key or an adjacency set. *)
Theorem graph_read_only order movies similarities friends :
  enumerates order →
  let graph := build_graph movies similarities in
  (∀ fuel node visited r graph' visited',
      node ∈ dom graph →
      dfs_fuel order fuel node graph visited = Ok (r, (graph', visited')) →
      graph' = graph) ∧
  (∀ movie, movie ∈ movies →
      ∃ sn, calculate_score order movie friends graph = Ok (sn, graph)) ∧
  (∃ recommendations,
      score_catalog order movies friends graph = Ok (recommendations, graph)).
Proof.
  intros H graph.
  assert (closed graph) as Hcl by (intros k x; apply build_graph_closed).
  assert (∀ m, m ∈ movies → m ∈ dom graph) as Hdom
    by (intros m Hm; apply build_graph_dom; by left).
  split_and!.
  - intros fuel node visited r g' v' Hnode E.
    by apply (dfs_fuel_closed order H fuel node graph visited r g' v').
  - intros movie Hm. apply (calculate_score_closed order H); auto.
  - eexists. by apply (score_catalog_eq order H).
Qed.

Lemma graph_read_only_witness :
  enumerates (fun _ => elements) ∧
  let graph := build_graph ex_movies ex_similarities in
  (∀ fuel node visited r graph' visited',
      node ∈ dom graph →
      dfs_fuel (fun _ => elements) fuel node graph visited = Ok (r, (graph', visited')) →
      graph' = graph) ∧
  (∀ movie, movie ∈ ex_movies →
      ∃ sn, calculate_score (fun _ => elements) movie ex_friends graph = Ok (sn, graph)) ∧
  (∃ recommendations,
      score_catalog (fun _ => elements) ex_movies ex_friends graph =
        Ok (recommendations, graph)).
Proof.
  split; [apply elements_enumerates|].
  apply (graph_read_only (fun _ => elements) ex_movies ex_similarities ex_friends).
  apply elements_enumerates.
Defined.

(** * The scorer *)

(** C10. Whenever [calculate_score] returns a novelty other than [0], the
    score is at least [1] and the novelty is greater than [0] and at most
    [1]. *)
Theorem novelty_bounds order movie friends graph score novelty graph' :
  enumerates order →
  calculate_score order movie friends graph = Ok ((score, novelty), graph') →
  novelty ≠ 0%Qc →
  1 ≤ score ∧ (0 < novelty ≤ 1)%Qc.
Proof.
  intros H E Hne.
  destruct (calculate_score_eq order H movie friends graph) as (r & _ & _ & Hscore).
  rewrite Hscore in E. unfold score_spec in E.
  case_decide as Hseen; [by simplify_eq|].
  case_decide as Hc; [by simplify_eq|].
  injection E as <- <- _.
  pose proof (mean_overlap_ge_1 _ _ Hc) as Hmean.
  assert (0 < mean_overlap (r ∖ {[movie]}) friends)%Qc as Hpos
    by (eapply Qclt_le_trans; [|exact Hmean]; done).
  split_and!.
  - unfold seen_by in *. lia.
  - unfold Qcdiv. rewrite Qcmult_1_l. by apply Qcinv_pos.
  - apply (Qcmult_le_mono_pos_r _ _ _ Hpos).
    unfold Qcdiv. rewrite !Qcmult_1_l, Qcmult_inv_l; [done|].
    by apply not_symmetry, Qclt_not_eq.
Qed.

Lemma novelty_bounds_witness :
  enumerates (fun _ => elements) ∧
  calculate_score (fun _ => elements) "Snatch" ex_friends
    (build_graph ex_movies ex_similarities) =
    Ok ((1, 1%Qc), build_graph ex_movies ex_similarities) ∧
  1%Qc ≠ 0%Qc ∧
  (1 ≤ 1 ∧ (0 < 1 ≤ 1)%Qc).
Proof.
  assert (calculate_score (fun _ => elements) "Snatch" ex_friends
            (build_graph ex_movies ex_similarities) =
          Ok ((1, 1%Qc), build_graph ex_movies ex_similarities)) as E.
  { apply calculate_score_value; [apply elements_enumerates| |vm_compute; reflexivity].
    unfold ex_movies. set_solver. }
  assert (1%Qc ≠ 0%Qc) as Hne by (intros Heq; discriminate Heq).
  split; [apply elements_enumerates|]. split; [exact E|]. split; [exact Hne|].
  exact (novelty_bounds (fun _ => elements) "Snatch" ex_friends
           (build_graph ex_movies ex_similarities) 1 1%Qc
           (build_graph ex_movies ex_similarities) elements_enumerates E Hne).
Defined.

(** * The recommender *)







(** * Further properties of [build_graph] *)

(** X1. The keys of the graph are the items of the catalog together with
    every endpoint of a pair, whether or not the catalog lists it. *)
Theorem build_graph_keys movies similarities k :
  k ∈ dom (build_graph movies similarities) ↔
  k ∈ movies ∨ ∃ y, (k, y) ∈ similarities ∨ (y, k) ∈ similarities.
Proof. apply build_graph_dom. Qed.

(** X2. The set stored at a key holds the key and the other endpoint of
    every pair the key occurs in, and nothing else; nothing is stored at a
    string that is neither in the catalog nor in a pair. *)
Theorem build_graph_sets movies similarities k :
  match (build_graph movies similarities !! k) with
  | Some s =>
      (k ∈ movies ∨ endpoint similarities k) ∧
      ∀ x, x ∈ s ↔ x = k ∨ (k, x) ∈ similarities ∨ (x, k) ∈ similarities
  | None => (k ∉ movies) ∧ ¬ endpoint similarities k
  end.
Proof.
  pose proof (build_graph_dom movies similarities k) as Hdom.
  pose proof (build_graph_adj movies similarities k) as Hadj.
  rewrite elem_of_dom in Hdom. unfold adj in Hadj.
  destruct (build_graph movies similarities !! k) as [s|] eqn:E; simpl in Hadj.
  - assert (k ∈ movies ∨ endpoint similarities k) as Hk by (apply Hdom; by eexists).
    split; [done|]. intros x. rewrite Hadj. tauto.
  - assert (¬ (k ∈ movies ∨ endpoint similarities k)) as Hk
      by (intros Hk%Hdom; by destruct Hk).
    tauto.
Qed.

(** X3. An item of the catalog that occurs in no pair is stored with
    itself as its only neighbour. *)
Theorem build_graph_isolated movies similarities m :
  m ∈ movies → ¬ endpoint similarities m →
  build_graph movies similarities !! m = Some {[m]}.
Proof.
  intros Hm Hne.
  pose proof (build_graph_dom movies similarities m) as Hdom.
  pose proof (build_graph_adj movies similarities m) as Hadj.
  rewrite elem_of_dom in Hdom. unfold adj in Hadj.
  destruct (build_graph movies similarities !! m) as [s|] eqn:E; simpl in Hadj.
  - f_equal. apply set_eq. intros x. rewrite Hadj, elem_of_singleton.
    unfold endpoint in Hne. naive_solver.
  - destruct Hdom as [_ Hdom]. destruct Hdom as [? ?]; [by left | done].
Qed.

Lemma build_graph_isolated_witness :
  "The Hateful Eight" ∈ ["Snatch"; "The Hateful Eight"] ∧
  ¬ endpoint [("Snatch", "Pain & Gain")] "The Hateful Eight" ∧
  build_graph ["Snatch"; "The Hateful Eight"] [("Snatch", "Pain & Gain")]
    !! "The Hateful Eight" = Some {["The Hateful Eight"]}.
Proof.
  assert ("The Hateful Eight" ∈ ["Snatch"; "The Hateful Eight"]) as Hm by set_solver.
  assert (¬ endpoint [("Snatch", "Pain & Gain")] "The Hateful Eight") as Hne
    by (intros [y Hy]; set_solver).
  split; [exact Hm|]. split; [exact Hne|].
  exact (build_graph_isolated _ _ _ Hm Hne).
Defined.

Lemma graph_eq (g1 g2 : gmap string (gset string)) :
  dom g1 = dom g2 → (∀ k, adj g1 k = adj g2 k) → g1 = g2.
Proof.
  intros Hdom Hadj. apply map_eq. intros k. specialize (Hadj k). unfold adj in Hadj.
  assert (k ∈ dom g1 ↔ k ∈ dom g2) as Hk by (by rewrite Hdom).
  rewrite !elem_of_dom in Hk.
  destruct (g1 !! k) as [s1|], (g2 !! k) as [s2|]; simpl in *; try done.
  - by subst.
  - destruct Hk as [Hk _]. by destruct Hk.
  - destruct Hk as [_ Hk]. by destruct Hk.
Qed.

(** X4. The graph depends only on which items the catalog lists and on
    which unordered pairs the similarity list holds: order, repetition and
    the orientation of a pair make no difference. *)
Theorem build_graph_unordered movies movies' similarities similarities' :
  (∀ m, m ∈ movies ↔ m ∈ movies') →
  (∀ a b, (a, b) ∈ similarities ∨ (b, a) ∈ similarities ↔
          (a, b) ∈ similarities' ∨ (b, a) ∈ similarities') →
  build_graph movies similarities = build_graph movies' similarities'.
Proof.
  intros Hm Hs.
  assert (∀ k, endpoint similarities k ↔ endpoint similarities' k) as He.
  { intros k. unfold endpoint. split; intros [y Hy]; exists y; by apply Hs. }
  apply graph_eq.
  - apply set_eq. intros k. rewrite !build_graph_dom, Hm, He. done.
  - intros k. apply set_eq. intros x. rewrite !build_graph_adj, Hm, He.
    specialize (Hs k x). tauto.
Qed.

Lemma build_graph_unordered_witness :
  (∀ m, m ∈ ["Snatch"; "Pain & Gain"] ↔ m ∈ ["Pain & Gain"; "Snatch"; "Snatch"]) ∧
  (∀ a b, (a, b) ∈ [("Snatch", "Pain & Gain")] ∨ (b, a) ∈ [("Snatch", "Pain & Gain")] ↔
          (a, b) ∈ [("Pain & Gain", "Snatch"); ("Pain & Gain", "Snatch")] ∨
          (b, a) ∈ [("Pain & Gain", "Snatch"); ("Pain & Gain", "Snatch")]) ∧
  build_graph ["Snatch"; "Pain & Gain"] [("Snatch", "Pain & Gain")] =
  build_graph ["Pain & Gain"; "Snatch"; "Snatch"]
    [("Pain & Gain", "Snatch"); ("Pain & Gain", "Snatch")].
Proof.
  assert (∀ m, m ∈ ["Snatch"; "Pain & Gain"] ↔ m ∈ ["Pain & Gain"; "Snatch"; "Snatch"])
    as Hm by set_solver.
  assert (∀ a b, (a, b) ∈ [("Snatch", "Pain & Gain")] ∨ (b, a) ∈ [("Snatch", "Pain & Gain")] ↔
          (a, b) ∈ [("Pain & Gain", "Snatch"); ("Pain & Gain", "Snatch")] ∨
          (b, a) ∈ [("Pain & Gain", "Snatch"); ("Pain & Gain", "Snatch")]) as Hs
    by set_solver.
  split; [exact Hm|]. split; [exact Hs|].
  exact (build_graph_unordered _ _ _ _ Hm Hs).
Defined.

(** * Further properties of [dfs] *)





(** X7. Started on a string that is not a key, [dfs] raises nothing: it
    returns the set holding that string alone, and the graph has gained
    the string as a key with an empty adjacency set. *)
Theorem dfs_missing_key order node graph :
  enumerates order →
  node ∉ dom graph →
  dfs order node graph ∅ = Ok ({[node]}, (<[node := ∅]> graph, {[node]})).
Proof.
  intros H Hnode. apply not_elem_of_dom in Hnode.
  destruct (dfs_cluster order H node graph) as (r & E & Hr).
  assert (r = {[node]}) as ->.
  { apply set_eq. intros x. rewrite Hr, elem_of_singleton. split.
    - intros [->|(y & Hy & _)]%rtc_inv; [done|].
      unfold edge, adj in Hy. rewrite Hnode in Hy. set_solver.
    - intros ->. apply rtc_refl. }
  rewrite E. do 3 f_equal.
  pose proof (getitem_eq graph node) as Hget. unfold getitem in Hget.
  rewrite Hnode in Hget. by injection Hget as _ <-.
Qed.

Lemma dfs_missing_key_witness :
  enumerates (fun _ => elements) ∧
  ("Reservoir Dogs" ∉ dom (build_graph ["Snatch"] [])) ∧
  dfs (fun _ => elements) "Reservoir Dogs" (build_graph ["Snatch"] []) ∅ =
    Ok ({["Reservoir Dogs"]},
        (<["Reservoir Dogs" := ∅]> (build_graph ["Snatch"] []), {["Reservoir Dogs"]})).
Proof.
  assert ("Reservoir Dogs" ∉ dom (build_graph ["Snatch"] [])) as Hn.
  { rewrite build_graph_dom. unfold endpoint. set_solver. }
  split; [apply elements_enumerates|]. split; [exact Hn|].
  exact (dfs_missing_key (fun _ => elements) "Reservoir Dogs" (build_graph ["Snatch"] [])
           elements_enumerates Hn).
Defined.

Lemma build_graph_edge_sym movies similarities a b :
  edge (build_graph movies similarities) a b → edge (build_graph movies similarities) b a.
Proof.
  unfold edge. rewrite !build_graph_adj.
  intros [[-> ?]|[?|?]]; auto.
Qed.

Lemma build_graph_reachable_sym movies similarities a b :
  reachable (build_graph movies similarities) a b →
  reachable (build_graph movies similarities) b a.
Proof.
  unfold reachable. induction 1 as [|x y z Hxy _ IH]; [done|].
  eapply rtc_r; [exact IH|]. by apply build_graph_edge_sym.
Qed.



(** * Further properties of [calculate_score] *)

Lemma dom_vivify graph r : dom (vivify graph r) = dom graph ∪ r.
Proof. unfold vivify. by rewrite dom_union_L, dom_gset_to_gmap. Qed.

Lemma seen_by_Exists movie friends :
  seen_by movie friends ≠ 0 ↔ Exists (fun friend => movie ∈ friend) friends.
Proof.
  rewrite seen_by_0, Exists_exists, Forall_forall. split.
  - intros Hn. destruct (decide (Exists (fun friend => movie ∈ friend) friends)) as [He|He].
    + by apply Exists_exists in He.
    + destruct Hn. intros f Hf Hin. apply He, Exists_exists. eauto.
  - intros (f & Hf & Hin) Hall. by apply (Hall f).
Qed.

Lemma counted_Exists similar friends :
  counted similar friends ≠ [] ↔
  ∃ x, x ∈ similar ∧ Exists (fun friend => x ∈ friend) friends.
Proof.
  unfold counted. split.
  - intros Hne. destruct (filter _ friends) as [|f l] eqn:E; [done|].
    assert (f ∈ filter (fun friend => 0 < overlap similar friend) friends) as Hf
      by (rewrite E; apply elem_of_cons; by left).
    apply list_elem_of_filter in Hf as [(x & Hx & Hs)%overlap_pos Hf].
    exists x. split; [done|]. apply Exists_exists. eauto.
  - intros (x & Hs & (f & Hf & Hx)%Exists_exists) Hnil.
    assert (f ∉ friends) as Hnot; [|done].
    eapply filter_nil_not_elem_of; [exact Hnil|]. apply overlap_pos. eauto.
Qed.

Lemma inv_mean_overlap_pos similar friends :
  counted similar friends ≠ [] → (0 < 1 / mean_overlap similar friends)%Qc.
Proof.
  intros Hc. pose proof (mean_overlap_ge_1 _ _ Hc) as Hmean.
  unfold Qcdiv. rewrite Qcmult_1_l. apply Qcinv_pos.
  eapply Qclt_le_trans; [|exact Hmean]. done.
Qed.

Lemma score_spec_novelty movie similar friends :
  (score_spec movie similar friends).2 ≠ 0%Qc ↔
  seen_by movie friends ≠ 0 ∧ counted similar friends ≠ [].
Proof.
  unfold score_spec. repeat case_decide; simpl; try tauto.
  split; [done|]. intros _ Heq.
  pose proof (inv_mean_overlap_pos similar friends) as Hpos.
  rewrite Heq in Hpos. by apply (Qclt_not_eq 0 0); [apply Hpos|].
Qed.

(** X9. The pair that [calculate_score] returns is either [(0, 0)] or has
    both components different from [0]: the score is [0] exactly when the
    novelty is. *)
Theorem score_zero_iff_novelty_zero order movie friends graph score novelty graph' :
  enumerates order →
  calculate_score order movie friends graph = Ok ((score, novelty), graph') →
  (score = 0 ↔ novelty = 0%Qc).
Proof.
  intros H E.
  destruct (calculate_score_eq order H movie friends graph) as (r & _ & _ & Hscore).
  rewrite Hscore in E. injection E as E _. unfold score_spec in E.
  case_decide as Hseen; [injection E as <- <-; done|].
  case_decide as Hc; [injection E as <- <-; done|].
  injection E as <- <-.
  pose proof (inv_mean_overlap_pos _ _ Hc) as Hpos.
  split; [intros Hz; by destruct Hseen|].
  intros Heq. rewrite Heq in Hpos. by apply Qclt_not_eq in Hpos.
Qed.

Lemma score_zero_iff_novelty_zero_witness :
  enumerates (fun _ => elements) ∧
  calculate_score (fun _ => elements) "Reservoir Dogs" ex_friends
    (build_graph ex_movies ex_similarities) =
    Ok ((0, 0%Qc), build_graph ex_movies ex_similarities) ∧
  (0 = 0 ↔ 0%Qc = 0%Qc).
Proof.
  assert (calculate_score (fun _ => elements) "Reservoir Dogs" ex_friends
            (build_graph ex_movies ex_similarities) =
          Ok ((0, 0%Qc), build_graph ex_movies ex_similarities)) as E.
  { apply calculate_score_value; [apply elements_enumerates| |vm_compute; reflexivity].
    unfold ex_movies. set_solver. }
  split; [apply elements_enumerates|]. split; [exact E|].
  exact (score_zero_iff_novelty_zero (fun _ => elements) "Reservoir Dogs" ex_friends
           (build_graph ex_movies ex_similarities) 0 0%Qc
           (build_graph ex_movies ex_similarities) elements_enumerates E).
Defined.

(** X10. The novelty that [calculate_score] returns for a movie is not [0]
    exactly when some peer has seen the movie and some peer has seen
    another movie that is reachable from it in the graph. *)
Theorem novelty_nonzero_iff_candidate order movie friends graph score novelty graph' :
  enumerates order →
  calculate_score order movie friends graph = Ok ((score, novelty), graph') →
  (novelty ≠ 0%Qc ↔ candidate graph friends movie).
Proof.
  intros H E.
  destruct (calculate_score_eq order H movie friends graph) as (r & _ & Hr & Hscore).
  rewrite Hscore in E. injection E as E _.
  pose proof (score_spec_novelty movie (r ∖ {[movie]}) friends) as Hn.
  rewrite E in Hn. simpl in Hn. rewrite Hn, seen_by_Exists, counted_Exists.
  unfold candidate. split; intros [Hseen (x & Hx & Hex)]; (split; [done|]); exists x.
  - apply elem_of_difference in Hx as [Hx Hne%not_elem_of_singleton].
    split; [done|]. split; [by apply Hr | done].
  - destruct Hex as [Hreach Hex]. split; [|done].
    apply elem_of_difference. split; [by apply Hr | by apply not_elem_of_singleton].
Qed.

Lemma novelty_nonzero_iff_candidate_witness :
  enumerates (fun _ => elements) ∧
  calculate_score (fun _ => elements) "Snatch" ex_friends
    (build_graph ex_movies ex_similarities) =
    Ok ((1, 1%Qc), build_graph ex_movies ex_similarities) ∧
  (1%Qc ≠ 0%Qc ↔ candidate (build_graph ex_movies ex_similarities) ex_friends "Snatch").
Proof.
  assert (calculate_score (fun _ => elements) "Snatch" ex_friends
            (build_graph ex_movies ex_similarities) =
          Ok ((1, 1%Qc), build_graph ex_movies ex_similarities)) as E.
  { apply calculate_score_value; [apply elements_enumerates| |vm_compute; reflexivity].
    unfold ex_movies. set_solver. }
  split; [apply elements_enumerates|]. split; [exact E|].
  exact (novelty_nonzero_iff_candidate (fun _ => elements) "Snatch" ex_friends
           (build_graph ex_movies ex_similarities) 1 1%Qc
           (build_graph ex_movies ex_similarities) elements_enumerates E).
Defined.



(** * Further properties of [recommend_movie] *)

Lemma ratio_of_candidate order friends graph movie :
  enumerates order →
  is_Some (ratio_of order friends graph movie) ↔ candidate graph friends movie.
Proof.
  intros H. unfold ratio_of.
  destruct (calculate_score_eq order H movie friends graph) as (r & _ & Hr & E).
  destruct (score_spec movie (r ∖ {[movie]}) friends) as [score novelty] eqn:Hs.
  assert (novelty ≠ 0%Qc ↔ candidate graph friends movie) as Hn.
  { pose proof (score_spec_novelty movie (r ∖ {[movie]}) friends) as Hn.
    rewrite Hs in Hn. simpl in Hn. rewrite Hn, seen_by_Exists, counted_Exists.
    unfold candidate. split; intros [Hseen (x & Hx & Hex)]; (split; [done|]); exists x.
    - apply elem_of_difference in Hx as [Hx Hne%not_elem_of_singleton].
      split; [done|]. split; [by apply Hr | done].
    - destruct Hex as [Hreach Hex]. split; [|done].
      apply elem_of_difference. split; [by apply Hr | by apply not_elem_of_singleton]. }
  rewrite E. clear E. cbn beta iota.
  destruct (decide (novelty ≠ 0%Qc)) as [Hd|Hd].
  - split; [intros _; by apply Hn | by eexists].
  - split; [by intros [? ?] | intros Hc%Hn; done].
Qed.

Lemma score_catalog_no_peers order movies graph : ∀ acc,
  fold_left (score_step order []) movies (Ok (acc, graph)) = Ok (acc, graph).
Proof. induction movies as [|m l IH]; intros acc; [done|]. simpl. apply IH. Qed.

(** X13. With an empty catalog, or with no peer at all, [recommend_movie]
    returns the sentinel, whatever the other arguments and the iteration
    order. *)
Theorem recommend_movie_no_input order movies similarities friends :
  movies = [] ∨ friends = [] →
  recommend_movie order movies similarities friends = Ok sentinel.
Proof.
  intros [-> | ->]; unfold recommend_movie, score_catalog; [done|].
  by rewrite score_catalog_no_peers.
Qed.

Lemma recommend_movie_no_input_witness :
  (ex_movies = [] ∨ @nil (list string) = []) ∧
  recommend_movie (fun _ => elements) ex_movies ex_similarities [] = Ok sentinel.
Proof.
  assert (ex_movies = [] ∨ @nil (list string) = []) as Hin by (by right).
  split; [exact Hin|].
  exact (recommend_movie_no_input (fun _ => elements) ex_movies ex_similarities [] Hin).
Defined.

(** X14. When no pair joins two different movies (in particular when the
    similarity list is empty), [recommend_movie] returns the sentinel,
    whatever the catalog and the peers. *)
Theorem recommend_movie_no_similar order movies similarities friends :
  enumerates order →
  (∀ a b, (a, b) ∈ similarities → a = b) →
  recommend_movie order movies similarities friends = Ok sentinel.
Proof.
  intros H Hrefl. apply (recommend_movie_no_candidate order H).
  intros m Hm.
  destruct (ratio_of order friends (build_graph movies similarities) m) as [q|] eqn:Hq;
    [|done].
  assert (candidate (build_graph movies similarities) friends m)
    as [_ (x & Hne & Hreach & _)]
    by (apply (ratio_of_candidate order friends _ m H); by eexists).
  destruct Hne. symmetry. revert x Hreach.
  apply (rtc_ind_r (fun x => m = x) m); [done|].
  intros y z _ Hyz <-. unfold edge in Hyz. rewrite build_graph_adj in Hyz.
  destruct Hyz as [[-> _]|[Hp|Hp]]; [done|by apply Hrefl|symmetry; by apply Hrefl].
Qed.

Lemma recommend_movie_no_similar_witness :
  enumerates (fun _ => elements) ∧
  (∀ a b, (a, b) ∈ [("Snatch", "Snatch")] → a = b) ∧
  recommend_movie (fun _ => elements) ex_movies [("Snatch", "Snatch")] ex_friends =
    Ok sentinel.
Proof.
  assert (∀ a b : string, (a, b) ∈ [("Snatch", "Snatch")] → a = b) as Hrefl
    by (intros a b Hab; apply list_elem_of_singleton in Hab; congruence).
  split; [apply elements_enumerates|]. split; [exact Hrefl|].
  exact (recommend_movie_no_similar (fun _ => elements) ex_movies [("Snatch", "Snatch")]
           ex_friends elements_enumerates Hrefl).
Defined.



(** * Peers as a collection of sets *)

Lemma score_spec_congr movie similar friends friends' :
  same_counts friends friends' →
  score_spec movie similar friends = score_spec movie similar friends'.
Proof.
  intros Hsame. destruct (Hsame movie similar) as (Hseen & Hlen & Htot).
  unfold score_spec, mean_overlap. rewrite Hseen, Hlen, Htot.
  case_decide; [done|].
  destruct (counted similar friends), (counted similar friends'); simpl in Hlen; try done.
Qed.

Lemma calculate_score_congr order movie friends friends' graph :
  enumerates order → same_counts friends friends' →
  calculate_score order movie friends graph = calculate_score order movie friends' graph.
Proof.
  intros H Hsame.
  destruct (calculate_score_eq order H movie friends graph) as (r & E & _ & ->).
  destruct (calculate_score_eq order H movie friends' graph) as (r' & E' & _ & ->).
  rewrite E in E'. injection E' as <-.
  rewrite (score_spec_congr movie (r ∖ {[movie]}) friends friends' Hsame).
  by destruct (Hsame movie ∅) as (-> & _).
Qed.

Lemma recommend_movie_congr order movies similarities friends friends' :
  enumerates order → same_counts friends friends' →
  recommend_movie order movies similarities friends =
  recommend_movie order movies similarities friends'.
Proof.
  intros H Hsame. unfold recommend_movie. f_equal.
  unfold score_catalog.
  generalize (Ok (@nil (string * Qc), build_graph movies similarities)).
  induction movies as [|m l IH]; intros acc; [done|].
  cbn [fold_left]. rewrite IH. f_equal.
  unfold score_step. destruct acc as [[recs g]| |]; cbn [obind]; [|done..].
  by rewrite (calculate_score_congr order m friends friends' g H Hsame).
Qed.

Lemma foldr_add_Permutation (l l' : list Z) :
  l ≡ₚ l' → foldr Z.add 0 l = foldr Z.add 0 l'.
Proof.
  induction 1 as [|x l l' _ IH|x y l|l l' l'' _ IH1 _ IH2]; simpl; lia.
Qed.

Lemma same_counts_Permutation friends friends' :
  friends ≡ₚ friends' → same_counts friends friends'.
Proof.
  intros Hp movie similar. unfold seen_by, total_overlap, counted. split_and!.
  - by rewrite Hp.
  - by rewrite Hp.
  - apply foldr_add_Permutation. by rewrite Hp.
Qed.

Lemma same_counts_Forall2 friends friends' :
  Forall2 (fun f f' : list string => ∀ x, x ∈ f ↔ x ∈ f') friends friends' →
  same_counts friends friends'.
Proof.
  intros HF movie similar. unfold seen_by, total_overlap, counted.
  induction HF as [|f f' l l' Hf _ (IH1 & IH2 & IH3)]; [done|].
  assert (overlap similar f = overlap similar f') as Ho.
  { unfold overlap. do 2 f_equal. apply set_eq. intros x.
    rewrite !elem_of_intersection, !elem_of_list_to_set, Hf. done. }
  rewrite !filter_cons. rewrite <-Ho. split_and!.
  - repeat case_decide; simpl length; try lia; exfalso; naive_solver.
  - repeat case_decide; simpl length; lia.
  - repeat case_decide; cbn [fmap list_fmap foldr]; lia.
Qed.

(** X16. The recommendation does not depend on the order of the peers:
    permuting the list of histories leaves the result unchanged. *)
Theorem recommend_movie_peer_order order movies similarities friends friends' :
  enumerates order → friends ≡ₚ friends' →
  recommend_movie order movies similarities friends =
  recommend_movie order movies similarities friends'.
Proof.
  intros H Hp. apply recommend_movie_congr; [done|]. by apply same_counts_Permutation.
Qed.

Lemma recommend_movie_peer_order_witness :
  enumerates (fun _ => elements) ∧
  ex_friends ≡ₚ reverse ex_friends ∧
  recommend_movie (fun _ => elements) ex_movies ex_similarities ex_friends =
  recommend_movie (fun _ => elements) ex_movies ex_similarities (reverse ex_friends).
Proof.
  assert (ex_friends ≡ₚ reverse ex_friends) as Hp by (symmetry; apply reverse_Permutation).
  split; [apply elements_enumerates|]. split; [exact Hp|].
  exact (recommend_movie_peer_order (fun _ => elements) ex_movies ex_similarities
           ex_friends (reverse ex_friends) elements_enumerates Hp).
Defined.

(** X17. Each history counts as a set: replacing every history by a list
    with the same members (repetitions added or dropped, another order)
    leaves the recommendation unchanged. *)
Theorem recommend_movie_history_sets order movies similarities friends friends' :
  enumerates order →
  Forall2 (fun f f' : list string => ∀ x, x ∈ f ↔ x ∈ f') friends friends' →
  recommend_movie order movies similarities friends =
  recommend_movie order movies similarities friends'.
Proof.
  intros H HF. apply recommend_movie_congr; [done|]. by apply same_counts_Forall2.
Qed.

Lemma recommend_movie_history_sets_witness :
  enumerates (fun _ => elements) ∧
  Forall2 (fun f f' : list string => ∀ x, x ∈ f ↔ x ∈ f')
    [["Snatch"; "Pain & Gain"]] [["Pain & Gain"; "Snatch"; "Snatch"]] ∧
  recommend_movie (fun _ => elements) ex_movies ex_similarities
    [["Snatch"; "Pain & Gain"]] =
  recommend_movie (fun _ => elements) ex_movies ex_similarities
    [["Pain & Gain"; "Snatch"; "Snatch"]].
Proof.
  assert (Forall2 (fun f f' : list string => ∀ x, x ∈ f ↔ x ∈ f')
            [["Snatch"; "Pain & Gain"]] [["Pain & Gain"; "Snatch"; "Snatch"]]) as HF.
  { constructor; [|constructor]. intros z. rewrite !elem_of_cons, !elem_of_nil. tauto. }
  split; [apply elements_enumerates|]. split; [exact HF|].
  exact (recommend_movie_history_sets (fun _ => elements) ex_movies ex_similarities
           _ _ elements_enumerates HF).
Defined.

(** * Facts about rounding *)

Lemma scale_pos n d e : 0 < n → 0 < d → 0 < (scale n d e).1 ∧ 0 < (scale n d e).2.
Proof.
  intros Hn Hd. unfold scale. case_decide; simpl.
  - split; [done|]. apply Z.mul_pos_pos; [done|]. by apply Z.pow_pos_nonneg.
  - split; [|done]. apply Z.mul_pos_pos; [done|]. apply Z.pow_pos_nonneg; lia.
Qed.

(** [scale n d e] is at least one when [2 ^ e] is at most [n / d]; a
    smaller exponent keeps it so. *)
Lemma scale_mono n d e e' :
  0 < n → 0 < d → e' ≤ e →
  (scale n d e).2 ≤ (scale n d e).1 → (scale n d e').2 ≤ (scale n d e').1.
Proof.
  intros Hn Hd Hle. unfold scale. repeat case_decide; simpl; intros Hs; try lia.
  - assert (2 ^ e' ≤ 2 ^ e) by (apply Z.pow_le_mono_r; lia). nia.
  - assert (1 ≤ 2 ^ e) by (apply (Z.pow_le_mono_r 2 0); lia).
    assert (1 ≤ 2 ^ (- e')) by (apply (Z.pow_le_mono_r 2 0); lia). nia.
  - assert (2 ^ (- e) ≤ 2 ^ (- e')) by (apply Z.pow_le_mono_r; lia). nia.
Qed.

Lemma scale_below_log2 n d :
  0 < n → 0 < d →
  (scale n d (Z.log2 n - Z.log2 d - 1)).2 ≤ (scale n d (Z.log2 n - Z.log2 d - 1)).1.
Proof.
  intros Hn Hd.
  destruct (Z.log2_spec n Hn) as [Hn1 _]. destruct (Z.log2_spec d Hd) as [_ Hd2].
  pose proof (Z.log2_nonneg n). pose proof (Z.log2_nonneg d).
  unfold scale. case_decide as He; simpl.
  - assert (2 ^ Z.log2 n = 2 ^ Z.succ (Z.log2 d) * 2 ^ (Z.log2 n - Z.log2 d - 1)) as Heq
      by (rewrite <-Z.pow_add_r by lia; f_equal; lia).
    assert (0 < 2 ^ (Z.log2 n - Z.log2 d - 1)) by (apply Z.pow_pos_nonneg; lia). nia.
  - assert (2 ^ Z.succ (Z.log2 d) = 2 ^ Z.log2 n * 2 ^ (- (Z.log2 n - Z.log2 d - 1))) as Heq
      by (rewrite <-Z.pow_add_r by lia; f_equal; lia).
    assert (0 < 2 ^ (- (Z.log2 n - Z.log2 d - 1))) by (apply Z.pow_pos_nonneg; lia). nia.
Qed.

Lemma scale_exponent n d :
  0 < n → 0 < d → (scale n d (exponent n d)).2 ≤ (scale n d (exponent n d)).1.
Proof.
  intros Hn Hd. unfold exponent.
  destruct (scale n d (Z.log2 n - Z.log2 d)) as [N D] eqn:E.
  case_decide as Hle.
  - by rewrite E.
  - by apply scale_below_log2.
Qed.

Lemma round_half_even_pos n d : 0 < d → d ≤ n → 0 < round_half_even n d.
Proof.
  intros Hd Hle. unfold round_half_even.
  assert (0 < n / d) by (apply Z.div_str_pos; lia).
  destruct (2 * (n mod d) ?= d); [destruct (Z.even (n / d))|..]; lia.
Qed.

Lemma Q2Qc_pos (x : Q) : (0 < x)%Q → (0 < Q2Qc x)%Qc.
Proof. intros Hx. unfold Qclt. cbn [this Q2Qc]. rewrite (Qred_correct x). exact Hx. Qed.

Lemma round_to_rounding p : 1 ≤ p → rounding (round_to p).
Proof.
  intros Hp q Hq. unfold round_to. rewrite decide_True by done.
  assert (0 < Qnum q) as Hn.
  { unfold Qclt, Qlt in Hq. simpl in Hq. lia. }
  assert (0 < Z.pos (Qden q)) as Hd by done.
  pose proof (scale_pos (Qnum q) (Z.pos (Qden q)) (exponent (Qnum q) (Z.pos (Qden q)) - (p - 1))
                Hn Hd) as [HN HD].
  pose proof (scale_mono (Qnum q) (Z.pos (Qden q)) (exponent (Qnum q) (Z.pos (Qden q)))
                (exponent (Qnum q) (Z.pos (Qden q)) - (p - 1)) Hn Hd ltac:(lia)
                (scale_exponent _ _ Hn Hd)) as Hle.
  destruct (scale (Qnum q) (Z.pos (Qden q))
              (exponent (Qnum q) (Z.pos (Qden q)) - (p - 1))) as [N D]; simpl in *.
  pose proof (round_half_even_pos N D HD Hle) as Hm.
  case_decide as He; apply Q2Qc_pos; unfold Qlt; simpl.
  - assert (0 < 2 ^ (exponent (Qnum q) (Z.pos (Qden q)) - (p - 1)))
      by (by apply Z.pow_pos_nonneg). nia.
  - lia.
Qed.

Lemma round64_rounding : rounding round64.
Proof. by apply round_to_rounding. Qed.

(** * Facts about the interpreter-level functions *)

Section PyFacts.

Variable order : string → gset string → list string.
Variable limit : nat.
Variable fl : Qc → Qc.
Hypothesis order_spec : enumerates order.
Hypothesis fl_pos : rounding fl.

(** Within the limit, the traversal is the one on an unbounded stack. *)
Lemma Py_dfs_within node graph visited :
  (dfs_depth graph ≤ limit)%nat →
  Py.dfs order limit node graph visited = dfs order node graph visited.
Proof.
  intros Hle. unfold Py.dfs, dfs.
  destruct (dfs_fuel_enough order order_spec (dfs_depth graph) node graph visited)
    as [out E]; [done|].
  by rewrite (dfs_fuel_mono order _ limit _ _ _ _ Hle E), E.
Qed.

Lemma fl_mean_overlap_pos similar friends :
  counted similar friends ≠ [] → (0 < fl (mean_overlap similar friends))%Qc.
Proof.
  intros Hc. apply fl_pos. eapply Qclt_le_trans; [|by apply mean_overlap_ge_1]. done.
Qed.

Lemma Py_novelty_pos similar friends :
  counted similar friends ≠ [] →
  (0 < fl (Py.float fl 1 / fl (mean_overlap similar friends)))%Qc.
Proof.
  intros Hc. apply fl_pos. unfold Qcdiv. apply Qcmult_pos_pos.
  - unfold Py.float. apply fl_pos. by rewrite Z2Qc_inj_1.
  - by apply Qcinv_pos, fl_mean_overlap_pos.
Qed.

Lemma Py_score_spec_novelty movie similar friends :
  (Py.score_spec fl movie similar friends).2 ≠ 0%Qc ↔
  seen_by movie friends ≠ 0 ∧ counted similar friends ≠ [].
Proof.
  unfold Py.score_spec. repeat case_decide; simpl; try tauto.
  split; [done|]. intros _ Heq.
  pose proof (Py_novelty_pos similar friends ltac:(done)) as Hpos.
  rewrite Heq in Hpos. by apply Qclt_not_eq in Hpos.
Qed.

(** Within the limit [calculate_score] raises nothing and returns
    [Py.score_spec] of the cluster found by [dfs]. *)
Lemma Py_calculate_score_eq movie friends graph :
  (dfs_depth graph ≤ limit)%nat →
  ∃ cluster,
    Py.dfs order limit movie graph ∅ = Ok (cluster, (vivify graph cluster, cluster)) ∧
    (∀ x, x ∈ cluster ↔ reachable graph movie x) ∧
    Py.calculate_score order limit fl movie friends graph =
      Ok (Py.score_spec fl movie (cluster ∖ {[movie]}) friends,
          if decide (seen_by movie friends = 0) then graph
          else vivify graph cluster).
Proof.
  intros Hle.
  destruct (dfs_cluster order order_spec movie graph) as (r & E & Hr).
  rewrite <-(Py_dfs_within movie graph ∅ Hle) in E.
  exists r. split; [done|]. split; [done|].
  unfold Py.calculate_score, Py.score_spec. rewrite py_sum_ones.
  fold (seen_by movie friends).
  case_decide as Hseen; [done|].
  rewrite E. cbn [obind]. unfold set_remove.
  rewrite decide_True by (apply Hr, rtc_refl). cbn [obind].
  rewrite overlap_loop, !Z.add_0_l.
  case_decide as Hc.
  { rewrite decide_True; [done|]. destruct (counted _ friends); [done | simpl in Hc; lia]. }
  assert (counted (r ∖ {[movie]}) friends ≠ []) as Hne
    by (intros Hnil; rewrite Hnil in Hc; done).
  rewrite decide_False by done.
  unfold Py.true_div. rewrite decide_False.
  2:{ rewrite <-Z2Qc_inj_0. intros Heq%Z2Qc_inj. done. }
  cbn [obind]. fold (mean_overlap (r ∖ {[movie]}) friends).
  rewrite decide_False; [done|].
  intros Heq. pose proof (fl_mean_overlap_pos _ _ Hne) as Hpos.
  rewrite Heq in Hpos. by apply Qclt_not_eq in Hpos.
Qed.

Lemma Py_calculate_score_closed movie friends graph :
  (dfs_depth graph ≤ limit)%nat → closed graph → movie ∈ dom graph →
  ∃ sn, Py.calculate_score order limit fl movie friends graph = Ok (sn, graph).
Proof.
  intros Hle Hcl Hm.
  destruct (Py_calculate_score_eq movie friends graph Hle) as (r & _ & Hr & ->).
  eexists. f_equal. f_equal. case_decide; [done|].
  apply vivify_dom. intros x Hx. by apply (reachable_dom graph movie), Hr.
Qed.

Lemma Py_score_step_closed friends graph acc m :
  (dfs_depth graph ≤ limit)%nat → closed graph → m ∈ dom graph →
  Py.score_step order limit fl friends (Ok (acc, graph)) m =
    Ok (acc ++ option_list (pair m <$> Py.ratio_of order limit fl friends graph m), graph).
Proof.
  intros Hle Hcl Hm. unfold Py.score_step, Py.ratio_of. cbn [obind].
  destruct (Py_calculate_score_closed m friends graph Hle Hcl Hm) as ([score u] & ->).
  cbn [obind]. case_decide as Hu.
  - unfold Py.true_div. by rewrite decide_False by done.
  - simpl. by rewrite app_nil_r.
Qed.

Lemma Py_score_catalog_loop friends graph movies : ∀ acc,
  (dfs_depth graph ≤ limit)%nat → closed graph → (∀ m, m ∈ movies → m ∈ dom graph) →
  fold_left (Py.score_step order limit fl friends) movies (Ok (acc, graph)) =
    Ok (acc ++ omap (fun m => pair m <$> Py.ratio_of order limit fl friends graph m) movies,
        graph).
Proof.
  induction movies as [|m l IH]; intros acc Hle Hcl Hdom.
  - by rewrite app_nil_r.
  - cbn [fold_left omap]. rewrite Py_score_step_closed, IH; [|done..| |done|done|].
    + rewrite <-app_assoc. f_equal. cbn [omap list_omap].
      by destruct (Py.ratio_of order limit fl friends graph m).
    + intros m' Hm'. apply Hdom, elem_of_cons. by right.
    + apply Hdom, elem_of_cons. by left.
Qed.

Lemma Py_recommend_movie_first_max movies similarities friends :
  let graph := build_graph movies similarities in
  (dfs_depth graph ≤ limit)%nat →
  (∃ m, m ∈ movies ∧ is_Some (Py.ratio_of order limit fl friends graph m)) →
  ∃ pre m post q,
    movies = pre ++ m :: post ∧
    Py.ratio_of order limit fl friends graph m = Some q ∧
    Py.recommend_movie order limit fl movies similarities friends = Ok m ∧
    (∀ m' q', m' ∈ pre →
       Py.ratio_of order limit fl friends graph m' = Some q' → (q' < q)%Qc) ∧
    (∀ m' q', m' ∈ post →
       Py.ratio_of order limit fl friends graph m' = Some q' → (q' ≤ q)%Qc).
Proof.
  intros graph Hle (m0 & Hm0 & [q0 Hq0]).
  unfold Py.recommend_movie, Py.score_catalog. fold graph.
  rewrite Py_score_catalog_loop;
    [|done|intros k x; apply build_graph_closed
     |intros m Hm; apply build_graph_dom; by left].
  cbn [obind app].
  pose proof (elem_of_omap_pair _ _ _ _ Hm0 Hq0) as Hin.
  destruct (omap _ movies) as [|c cs] eqn:Hrecs; [by apply elem_of_nil in Hin|].
  destruct (py_max_first snd c cs) as ([m q] & l1 & l2 & -> & Heq & H1 & H2).
  rewrite Heq in Hrecs.
  apply omap_split in Hrecs as (pre & m' & post & -> & <- & Hm' & <-).
  destruct (Py.ratio_of order limit fl friends graph m') as [q'|] eqn:Hq'; simplify_eq/=.
  exists pre, m, post, q. split_and!; [done..| |].
  - intros m' q' Hpre Hr. apply (H1 (m', q')). by apply elem_of_omap_pair.
  - intros m' q' Hpost Hr. apply (H2 (m', q')). by apply elem_of_omap_pair.
Qed.

Lemma Py_recommend_movie_no_candidate movies similarities friends :
  let graph := build_graph movies similarities in
  (dfs_depth graph ≤ limit)%nat →
  (∀ m, m ∈ movies → Py.ratio_of order limit fl friends graph m = None) →
  Py.recommend_movie order limit fl movies similarities friends = Ok sentinel.
Proof.
  intros graph Hle Hnone.
  unfold Py.recommend_movie, Py.score_catalog. fold graph.
  rewrite Py_score_catalog_loop;
    [|done|intros k x; apply build_graph_closed
     |intros m Hm; apply build_graph_dom; by left].
  cbn [obind app].
  destruct (omap _ movies) as [|[m q] cs] eqn:Hrecs; [done|].
  assert ((m, q) ∈ omap (fun m => pair m <$> Py.ratio_of order limit fl friends graph m)
            movies)
    as (m' & Hm' & Hf)%list_elem_of_omap by (rewrite Hrecs; apply elem_of_cons; by left).
  by rewrite (Hnone m' Hm') in Hf.
Qed.

Lemma Py_ratio_of_candidate friends graph movie :
  (dfs_depth graph ≤ limit)%nat →
  is_Some (Py.ratio_of order limit fl friends graph movie) ↔ candidate graph friends movie.
Proof.
  intros Hle. unfold Py.ratio_of.
  destruct (Py_calculate_score_eq movie friends graph Hle) as (r & _ & Hr & E).
  destruct (Py.score_spec fl movie (r ∖ {[movie]}) friends) as [score novelty] eqn:Hs.
  assert (novelty ≠ 0%Qc ↔ candidate graph friends movie) as Hn.
  { pose proof (Py_score_spec_novelty movie (r ∖ {[movie]}) friends) as Hn.
    rewrite Hs in Hn. simpl in Hn. rewrite Hn, seen_by_Exists, counted_Exists.
    unfold candidate. split; intros [Hseen (x & Hx & Hex)]; (split; [done|]); exists x.
    - apply elem_of_difference in Hx as [Hx Hne%not_elem_of_singleton].
      split; [done|]. split; [by apply Hr | done].
    - destruct Hex as [Hreach Hex]. split; [|done].
      apply elem_of_difference. split; [by apply Hr | by apply not_elem_of_singleton]. }
  rewrite E. clear E. cbn beta iota.
  destruct (decide (novelty ≠ 0%Qc)) as [Hd|Hd].
  - split; [intros _; by apply Hn | by eexists].
  - split; [by intros [? ?] | intros Hc%Hn; done].
Qed.

End PyFacts.

(** * The recommender, as the interpreter runs it *)



(** On that input the exact ratios of "A" and "B" are both 11 and the
    first, "A", would win; rounded to binary64 the ratio of "A" is
    10.999999999999998 and "B" is returned. *)
Lemma tie_rounded_away :
  recommend_movie (fun _ => elements) tie_movies tie_similarities tie_friends = Ok "A" ∧
  Py.recommend_movie (fun _ => elements) 1000 round64
    tie_movies tie_similarities tie_friends = Ok "B".
Proof. split; by vm_compute. Qed.

(** * The scorer, as the interpreter runs it *)





